(** * Vietnamese sign-language translator: data pipeline

    A shallow embedding of the two data utilities of the repository:

    - [src/data/datasets.py]: [SignLanguageDataset.load_video], the frame
      sampler that turns a video into a clip of [num_frames] frames;
    - [src/data/raw/web_scraping.py]: [extract_region_from_url] and
      [process_data], the post-processing of the scraped table.

    Python integers are modelled by [Z], Python strings by lists of code
    points, raised exceptions by an explicit [result] type. *)

From Stdlib Require Import String Ascii.
From Stdlib Require Import ZArith NArith List Lia Bool Permutation.
From Stdlib Require Import Sorted.
Import ListNotations.
Local Open Scope Z_scope.

(** ** Exceptions *)

Inductive exn : Type :=
| ZeroDivisionError   (* [frame_count % 0] *)
| IndexError          (* [frames[-1]] on an empty list *)
| RuntimeError.       (* [torch.stack] on an empty or ill-shaped list *)

Inductive result (A : Type) : Type :=
| Ok (a : A)
| Raise (e : exn).

Arguments Ok {A} a.
Arguments Raise {A} e.

Definition bind {A B : Type} (r : result A) (k : A -> result B) : result B :=
  match r with
  | Ok a => k a
  | Raise e => Raise e
  end.

(** ** [src/data/datasets.py] *)

Module Datasets.

(** A frame as [cv2.VideoCapture.read] delivers it: an array of shape
    HxWx3, one triple of channel values per pixel.  OpenCV stores the
    channels of a decoded frame in the order blue, green, red. *)
Definition pixel : Type := (Z * Z * Z)%type.
Definition ndarray : Type := list (list pixel).

Definition channel0 (p : pixel) : Z := fst (fst p).
Definition channel1 (p : pixel) : Z := snd (fst p).
Definition channel2 (p : pixel) : Z := snd p.

Definition blue : pixel -> Z := channel0.
Definition green : pixel -> Z := channel1.
Definition red : pixel -> Z := channel2.

(** A frame of the clip: a tensor of shape CxHxW.  The values of a decoded
    frame are integers between 0 and 255, each of which is a float32 value,
    so [.float()] changes the element type and no value; the tensor holds
    the integer. *)
Definition tensor : Type := list (list (list Z)).

(** [cv2.cvtColor(frame, cv2.COLOR_BGR2RGB)]: the first and the third
    channel of every pixel change places. *)
Definition cvtColor_BGR2RGB (frame : ndarray) : ndarray :=
  map (map (fun p => (channel2 p, channel1 p, channel0 p))) frame.

(** [torch.tensor(frame).permute(2, 0, 1)]: HxWxC becomes CxHxW, so that
    [out[c][h][w] = frame[h][w][c]]. *)
Definition permute_2_0_1 (frame : ndarray) : tensor :=
  [ map (map channel0) frame; map (map channel1) frame; map (map channel2) frame ].

(** Lines 96 to 98: what is appended for a retained frame. *)
Definition to_frame_tensor (frame : ndarray) : tensor :=
  permute_2_0_1 (cvtColor_BGR2RGB frame).

(** [torch.zeros_like]. *)
Definition zeros_like (t : tensor) : tensor :=
  map (map (map (fun _ : Z => 0))) t.

(** The size of a tensor: the width of every row of every channel. *)
Definition dims (t : tensor) : list (list nat) :=
  map (map (@length Z)) t.

Definition dims_eq_dec (d e : list (list nat)) : {d = e} + {d <> e} :=
  list_eq_dec (list_eq_dec Nat.eq_dec) d e.

(** [torch.stack(frames)]: raises on an empty list and on tensors of
    different sizes; the stacked TxCxHxW tensor is the list of frames. *)
Definition stack (frames : list tensor) : result (list tensor) :=
  match frames with
  | [] => Raise RuntimeError
  | t :: rest =>
      if forallb (fun u => if dims_eq_dec (dims u) (dims t) then true else false) rest
      then Ok frames
      else Raise RuntimeError
  end.

(** The handle [cv2.VideoCapture(video_path)]: the frames the decoder has
    still to deliver, and whether [release] was called.  A file that cannot
    be opened or decoded delivers no frame. *)
Record VideoCapture : Type := mkCapture {
  pending : list ndarray;
  released : bool
}.

Definition VideoCapture_open (video : list ndarray) : VideoCapture :=
  mkCapture video false.

Definition release (cap : VideoCapture) : VideoCapture :=
  mkCapture (pending cap) true.

(** The fields of [SignLanguageDataset] that [load_video] reads. *)
Record SignLanguageDataset : Type := mkDataset {
  num_frames : Z;
  frame_step : Z
}.

(** [__init__]'s defaults. *)
Definition default_dataset : SignLanguageDataset := mkDataset 13 4.

(** Lines 89 to 100, the sampling loop.  The recursion follows the frames
    the decoder delivers: each iteration that passes the loop test calls
    [cap.read()] once, and the loop ends when the buffer is full or when
    [read] reports [ret = False].  The second component is what the handle
    has left to deliver when the loop is left. *)
Fixpoint sample_loop (self : SignLanguageDataset) (stream : list ndarray)
    (frames : list tensor) (frame_count : Z)
    : result (list tensor) * list ndarray :=
  if Z.of_nat (length frames) <? num_frames self then
    match stream with
    | [] => (Ok frames, [])
    | frame :: stream' =>
        if frame_step self =? 0 then (Raise ZeroDivisionError, stream')
        else
          let frames' :=
            if frame_count mod frame_step self =? 0
            then frames ++ [to_frame_tensor frame]
            else frames in
          sample_loop self stream' frames' (frame_count + 1)
    end
  else (Ok frames, stream).

(** [frames[-1]]. *)
Definition last_frame (frames : list tensor) : option tensor :=
  match rev frames with
  | [] => None
  | t :: _ => Some t
  end.

(** Lines 106 and 107: [k] iterations of the padding loop. *)
Fixpoint pad_loop (k : nat) (frames : list tensor) : result (list tensor) :=
  match k with
  | O => Ok frames
  | S k' =>
      match last_frame frames with
      | None => Raise IndexError
      | Some t => pad_loop k' (frames ++ [zeros_like t])
      end
  end.

(** Lines 105 to 107. *)
Definition pad (self : SignLanguageDataset) (frames : list tensor)
    : result (list tensor) :=
  if Z.of_nat (length frames) <? num_frames self
  then pad_loop (Z.to_nat (num_frames self - Z.of_nat (length frames))) frames
  else Ok frames.

(** [load_video], lines 85 to 109, on the frames the file of [video_path]
    decodes to.  The result is what the call returns or raises, and the
    state of its handle when the call ends.  An exception raised inside the
    loop leaves the function at once; line 102 is then not reached. *)
Definition load_video (self : SignLanguageDataset) (video : list ndarray)
    : result (list tensor) * VideoCapture :=
  let cap := VideoCapture_open video in
  match sample_loop self (pending cap) [] 0 with
  | (Raise e, rest) => (Raise e, mkCapture rest (released cap))
  | (Ok frames, rest) =>
      let cap := release (mkCapture rest (released cap)) in
      (bind (pad self frames) stack, cap)
  end.

End Datasets.

(** ** [src/data/raw/web_scraping.py] *)

Module WebScraping.

(** A Python [str]: the list of its code points. *)
Definition str : Type := list N.

(** A literal of the source, written in ASCII. *)
Definition lit (s : string) : str :=
  map N_of_ascii (list_ascii_of_string s).

Arguments lit s%_string_scope.

(** The patterns of the [re] module that the source uses are sequences of
    atoms that each consume one character: a literal character, the class
    [\d], and a parenthesised character class, which is a capture group. *)
Inductive atom : Type :=
| Lit (c : N)
| Digit
| Group (cls : str).

(** What [process_data] can raise. *)
Inductive pandas_error : Type :=
| TypeError        (* a concatenation or a search on a value that is no string *)
| AttributeError.  (* [.str] on a column that holds no strings *)

Inductive outcome (A : Type) : Type :=
| Returns (a : A)
| Raises (e : pandas_error).

Arguments Returns {A} a.
Arguments Raises {A} e.

Section Regex.

(** [\d] on a [str] pattern matches the Unicode decimal digits (category
    Nd); the table is the interpreter's, and the functions below take it as
    [isdecimal]. *)
Variable isdecimal : N -> bool.

(** Match a pattern at the start of [s]; the result holds the captured
    characters, one per group. *)
Fixpoint match_here (pat : list atom) (s : str) : option (list N) :=
  match pat with
  | [] => Some []
  | a :: pat' =>
      match s with
      | [] => None
      | c :: s' =>
          match a with
          | Lit x => if N.eqb c x then match_here pat' s' else None
          | Digit => if isdecimal c then match_here pat' s' else None
          | Group cls =>
              if existsb (N.eqb c) cls
              then option_map (cons c) (match_here pat' s')
              else None
          end
      end
  end.

(** [re.search]: the match at the leftmost position that has one. *)
Fixpoint re_search (pat : list atom) (s : str) : option (list N) :=
  match match_here pat s with
  | Some groups => Some groups
  | None =>
      match s with
      | [] => None
      | _ :: s' => re_search pat s'
      end
  end.

(** [r'/videos/D\d{4}([BTN])\.mp4'] *)
Definition region_pattern : list atom :=
  map Lit (lit "/videos/D") ++ repeat Digit 4 ++ [Group (lit "BTN")]
  ++ map Lit (lit ".mp4").

(** Lines 203 to 213. *)
Definition extract_region_from_url (video_url : str) : option str :=
  match re_search region_pattern video_url with
  | Some (c :: _) => Some [c]
  | _ => None
  end.

(** A column of the frame that [pd.read_csv] returns on line 186.
    [Strings]: a column of dtype object, whose cells are strings or
    missing; [read_csv] reads an empty cell, and cells such as 'NA', 'NaN'
    and 'null', as missing.  [Other]: a column of another dtype (int64,
    float64, bool), which [read_csv] builds when the cells all read as
    numbers or as booleans, or are all missing. *)
Inductive column : Type :=
| Strings (cells : list (option str))
| Other (rows : nat).

(** The frame read from the file, with its columns Text and Video. *)
Record csv_frame : Type := mkFrame {
  csv_Text : column;
  csv_Video : column
}.

(** A row of the data frame [process_data] returns; a cell of Text or
    Label may be missing. *)
Record row : Type := mkRow {
  Text : option str;
  Video_URL : str;
  Region : option str;
  Label : option str
}.

(** [.str.replace(' ', '_')] on a string. *)
Definition replace_space (s : str) : str :=
  map (fun c => if N.eqb c 32 then 95%N else c) s.

(** [.fillna('')] on the cell of the Region column. *)
Definition fillna_empty (r : option str) : str :=
  match r with
  | Some s => s
  | None => []
  end.

(** Line 190, ['https://qipedc.moet.gov.vn' + df['Video URL']]: a string
    is put in front of each string of an object column and a missing cell
    stays missing; on a column of another dtype the addition raises. *)
Definition add_prefix (prefix : str) (video : column)
    : outcome (list (option str)) :=
  match video with
  | Strings cells => Returns (map (option_map (app prefix)) cells)
  | Other _ => Raises TypeError
  end.

(** Line 193, [.apply(extract_region_from_url)]: the function is called on
    the cells in order, and [re.search] raises on a missing one.  Each URL
    is returned with its region. *)
Fixpoint apply_extract_region (urls : list (option str))
    : outcome (list (str * option str)) :=
  match urls with
  | [] => Returns []
  | None :: _ => Raises TypeError
  | Some url :: urls' =>
      match apply_extract_region urls' with
      | Returns regions => Returns ((url, extract_region_from_url url) :: regions)
      | Raises e => Raises e
      end
  end.

(** Line 196 on one row: the sum of two cells is missing when one of them
    is. *)
Definition make_row (text : option str) (video : str * option str) : row :=
  mkRow text (fst video) (snd video)
        (option_map (fun t => replace_space t ++ fillna_empty (snd video)) text).

(** The order of Python strings: lexicographic on the code points. *)
Fixpoint str_leb (a b : str) : bool :=
  match a, b with
  | [], _ => true
  | _ :: _, [] => false
  | x :: a', y :: b' =>
      if N.ltb x y then true
      else if N.eqb x y then str_leb a' b' else false
  end.

(** The sorting routine of [df.sort_values], by default numpy's quicksort,
    on rows whose Text is a string: it is not part of the repository and
    leaves the order of rows with equal Text open. *)
Variable quicksort : list row -> list row.

Definition has_Text (r : row) : bool :=
  match Text r with
  | Some _ => true
  | None => false
  end.

(** Line 199, [df.sort_values('Text')]: the rows with a Text, sorted, then
    the rows whose Text is missing, in the order they had. *)
Definition sort_values_Text (l : list row) : list row :=
  quicksort (filter has_Text l) ++ filter (fun r => negb (has_Text r)) l.

(** Lines 186 to 201, on the frame read from the CSV file.  [.str] on line
    196 raises when the Text column holds no strings. *)
Definition process_data (frame : csv_frame) : outcome (list row) :=
  match add_prefix (lit "https://qipedc.moet.gov.vn") (csv_Video frame) with
  | Raises e => Raises e
  | Returns urls =>
      match apply_extract_region urls with
      | Raises e => Raises e
      | Returns videos =>
          match csv_Text frame with
          | Other _ => Raises AttributeError
          | Strings texts =>
              Returns (sort_values_Text (map (fun tv => make_row (fst tv) (snd tv))
                                             (combine texts videos)))
          end
      end
  end.

End Regex.

End WebScraping.

(** ** Vocabulary of the statements *)

Module DatasetsSpec.
Import Datasets.

(** The frames of a stream that pass the test of line 95, when the first
    frame of the stream is decoded at position [count]. *)
Fixpoint retained (step count : Z) (stream : list ndarray) : list ndarray :=
  match stream with
  | [] => []
  | frame :: stream' =>
      if count mod step =? 0
      then frame :: retained step (count + 1) stream'
      else retained step (count + 1) stream'
  end.

(** The decode position of the [i]-th retained frame. *)
Definition decode_position (self : SignLanguageDataset) (i : nat) : nat :=
  (i * Z.to_nat (frame_step self))%nat.

(** The frames of one video all have the same height and width. *)
Definition frame_size (frame : ndarray) : list nat :=
  map (@length pixel) frame.

Definition uniform (video : list ndarray) : Prop :=
  forall f g, In f video -> In g video -> frame_size f = frame_size g.

(** The three colour planes of a decoded frame, each HxW. *)
Definition plane (channel : pixel -> Z) (frame : ndarray) : list (list Z) :=
  map (map channel) frame.

Definition rgb_planes (frame : ndarray) : tensor :=
  [plane red frame; plane green frame; plane blue frame].

(** The real frames of the clip: the first [num_frames] retained frames,
    converted. *)
Definition sampled (self : SignLanguageDataset) (video : list ndarray)
    : list tensor :=
  map to_frame_tensor
    (firstn (Z.to_nat (num_frames self)) (retained (frame_step self) 0 video)).

(** [frame[h][w]] and [t[c][h][w]], when the indices are in range. *)
Definition pixel_at (frame : ndarray) (h w : nat) : option pixel :=
  match nth_error frame h with
  | Some line => nth_error line w
  | None => None
  end.

Definition tensor_at (t : tensor) (c h w : nat) : option Z :=
  match nth_error t c with
  | Some channel =>
      match nth_error channel h with
      | Some line => nth_error line w
      | None => None
      end
  | None => None
  end.

Definition all_zero (t : tensor) : Prop :=
  forall c h w v, tensor_at t c h w = Some v -> v = 0.

(** A 2x2 frame for the examples. *)
Definition sample_frame (k : Z) : ndarray :=
  [[(k, k + 1, k + 2); (k, k, k)]; [(0, 0, 0); (1, 2, 3)]].

End DatasetsSpec.

(** ** The call as a relation on an arbitrary source *)

Module SamplerSemantics.
Import Datasets.

Section Source.

(** A source of frames in some state, and [ret, frame = cap.read()] as a
    relation: from a state, [read] may deliver a frame, [Some frame], or
    report [ret = False], [None], and leaves the source in a new state.
    Nothing is assumed of it here: the source may be endless, and it may
    answer differently from one run to the next. *)
Variable source : Type.
Variable read : source -> option ndarray -> source -> Prop.

Variable self : SignLanguageDataset.

(** Lines 89 to 100: a run of the loop from a source state, a buffer and
    a frame count, to what the loop ends with. *)
Inductive sample_run
    : source -> list tensor -> Z -> result (list tensor) -> source -> Prop :=
| run_full cap frames frame_count :
    num_frames self <= Z.of_nat (length frames) ->
    sample_run cap frames frame_count (Ok frames) cap
| run_break cap cap' frames frame_count :
    Z.of_nat (length frames) < num_frames self ->
    read cap None cap' ->
    sample_run cap frames frame_count (Ok frames) cap'
| run_zero_step cap cap' frame frames frame_count :
    Z.of_nat (length frames) < num_frames self ->
    read cap (Some frame) cap' ->
    frame_step self = 0 ->
    sample_run cap frames frame_count (Raise ZeroDivisionError) cap'
| run_retain cap cap' cap'' frame frames frame_count out :
    Z.of_nat (length frames) < num_frames self ->
    read cap (Some frame) cap' ->
    frame_step self <> 0 ->
    frame_count mod frame_step self = 0 ->
    sample_run cap' (frames ++ [to_frame_tensor frame]) (frame_count + 1) out cap'' ->
    sample_run cap frames frame_count out cap''
| run_skip cap cap' cap'' frame frames frame_count out :
    Z.of_nat (length frames) < num_frames self ->
    read cap (Some frame) cap' ->
    frame_step self <> 0 ->
    frame_count mod frame_step self <> 0 ->
    sample_run cap' frames (frame_count + 1) out cap'' ->
    sample_run cap frames frame_count out cap''.

(** Lines 85 to 109: what a call on a freshly opened source can end with.
    An exception of the loop leaves the function; otherwise the buffer is
    padded and stacked. *)
Inductive load_video_run (cap : source) : result (list tensor) -> Prop :=
| run_raises e cap' :
    sample_run cap [] 0 (Raise e) cap' ->
    load_video_run cap (Raise e)
| run_returns frames cap' :
    sample_run cap [] 0 (Ok frames) cap' ->
    load_video_run cap (bind (pad self frames) stack).

End Source.

(** The source of [load_video]: a file that decodes to a list of frames. *)
Inductive file_read : list ndarray -> option ndarray -> list ndarray -> Prop :=
| file_read_frame frame rest : file_read (frame :: rest) (Some frame) rest
| file_read_end : file_read [] None [].

End SamplerSemantics.

Module WebScrapingSpec.
Import WebScraping.

Section Segment.

Variable isdecimal : N -> bool.

(** [seg] reads '/videos/D', four digits, the letter [c] out of B, T and
    N, '.mp4'. *)
Definition region_segment (seg : str) (c : N) : Prop :=
  exists digits,
    seg = lit "/videos/D" ++ digits ++ [c] ++ lit ".mp4" /\
    length digits = 4%nat /\
    Forall (fun d => isdecimal d = true) digits /\
    In c (lit "BTN").

(** The URL holds such a segment, with letter [c], at offset [i]. *)
Definition segment_at (url : str) (i : nat) (c : N) : Prop :=
  exists pre seg post,
    url = pre ++ seg ++ post /\ length pre = i /\ region_segment seg c.

(** What one atom accepts. *)
Definition atom_accepts (a : atom) (c : N) : Prop :=
  match a with
  | Lit x => c = x
  | Digit => isdecimal c = true
  | Group cls => In c cls
  end.

(** The characters of a matched segment that stand under a group. *)
Fixpoint captured (pat : list atom) (seg : str) : list N :=
  match pat, seg with
  | Group _ :: pat', c :: seg' => c :: captured pat' seg'
  | _ :: pat', _ :: seg' => captured pat' seg'
  | _, _ => []
  end.

End Segment.

(** The digits of ASCII, for the examples. *)
Definition ascii_digit (c : N) : bool := (48 <=? c)%N && (c <=? 57)%N.

End WebScrapingSpec.

(** ** Python strings, lists and paths *)

Module Py.
Import WebScraping.

(** [s.startswith(prefix)] *)
Fixpoint startswith (s prefix : str) : bool :=
  match prefix, s with
  | [], _ => true
  | _ :: _, [] => false
  | p :: prefix', c :: s' => N.eqb c p && startswith s' prefix'
  end.

(** [s.endswith(suffix)] *)
Definition endswith (s suffix : str) : bool :=
  startswith (rev s) (rev suffix).

(** [sub in s] *)
Fixpoint contains (s sub : str) : bool :=
  startswith s sub ||
  match s with
  | [] => false
  | _ :: s' => contains s' sub
  end.

(** [s.replace(old, new)]: the occurrences of [old] are replaced from left
    to right, and the search goes on after each replaced occurrence.
    [skip] counts the characters of a replaced occurrence that are still to
    be passed over. *)
Fixpoint replace_from (old new : str) (skip : nat) (s : str) : str :=
  match s with
  | [] => []
  | c :: s' =>
      match skip with
      | S k => replace_from old new k s'
      | O =>
          if startswith s old
          then new ++ replace_from old new (length old - 1) s'
          else c :: replace_from old new 0 s'
      end
  end.

Definition replace (s old new : str) : str :=
  match old with
  | [] => new ++ flat_map (fun c => c :: new) s
  | _ :: _ => replace_from old new 0 s
  end.

(** [s.rfind(c)] for a character [c]: the highest index, or -1. *)
Fixpoint rfind_from (c : N) (s : str) (i last : Z) : Z :=
  match s with
  | [] => last
  | x :: s' => rfind_from c s' (i + 1) (if N.eqb x c then i else last)
  end.

Definition rfind (s : str) (c : N) : Z := rfind_from c s 0 (-1).

(** [s[a:b]] for indices that are not negative. *)
Definition slice (s : str) (a b : Z) : str :=
  firstn (Z.to_nat b - Z.to_nat a) (skipn (Z.to_nat a) s).

(** [os.path.splitext] of [posixpath]: the extension starts at the last dot
    of the last component, unless only dots come before it there. *)
Definition splitext (p : str) : str * str :=
  let sepIndex := rfind p 47 in
  let dotIndex := rfind p 46 in
  if sepIndex <? dotIndex then
    if existsb (fun c => negb (N.eqb c 46)) (slice p (sepIndex + 1) dotIndex)
    then (firstn (Z.to_nat dotIndex) p, skipn (Z.to_nat dotIndex) p)
    else (p, [])
  else (p, []).

(** [os.path.join(a, b)] of [posixpath]. *)
Definition join (a b : str) : str :=
  if startswith b (lit "/") then b
  else if match a with [] => true | _ :: _ => false end || endswith a (lit "/")
       then a ++ b
       else a ++ lit "/" ++ b.

(** [l[idx]] on a list: a negative index counts from the end. *)
Definition list_getitem {A : Type} (l : list A) (idx : Z) : result A :=
  let n := Z.of_nat (length l) in
  let i := if idx <? 0 then idx + n else idx in
  if (0 <=? i) && (i <? n) then
    match nth_error l (Z.to_nat i) with
    | Some x => Ok x
    | None => Raise IndexError
    end
  else Raise IndexError.

End Py.

(** ** [SignLanguageDataset] as a whole *)

Module DatasetItems.
Import Datasets WebScraping Py.

(** A transform: an object that can be called.  [truthy] is what the test
    [if self.transform:] of line 70 finds, since an object may define
    [__bool__] or [__len__], as an empty [torch.nn.Sequential] does; [call]
    is what calling it on a clip returns or raises. *)
Record callable : Type := mkCallable {
  truthy : bool;
  call : list tensor -> result (list tensor)
}.

(** The object [__init__] builds: the sampling parameters, the directory,
    the optional transform, and the names of the videos. *)
Record Dataset : Type := mkDatasetObject {
  sampling : SignLanguageDataset;
  data_dir : str;
  transform : option callable;
  data : list str
}.

(** [__init__], lines 41 to 45, on what [os.listdir(data_dir)] returns. *)
Definition init (dir : str) (frames step : Z) (f : option callable)
    (listing : list str) : Dataset :=
  mkDatasetObject (mkDataset frames step) dir f
    (filter (fun name => endswith name (lit ".mp4")) listing).

(** [__len__] *)
Definition len (self : Dataset) : Z := Z.of_nat (length (data self)).

(** Line 70 and 71: the transform is applied when there is one and it is
    truthy. *)
Definition apply_transform (self : Dataset) (video : list tensor)
    : result (list tensor) :=
  match transform self with
  | Some f => if truthy f then call f video else Ok video
  | None => Ok video
  end.

(** [__getitem__], lines 66 to 73, where [files] gives the frames each path
    decodes to.  The second component lists the handle the call opened, in
    the state the call left it in. *)
Definition getitem (self : Dataset) (files : str -> list ndarray) (idx : Z)
    : result (list tensor * str) * list VideoCapture :=
  match list_getitem (data self) idx with
  | Raise e => (Raise e, [])
  | Ok name =>
      let video_path := join (data_dir self) name in
      let (outcome, cap) := load_video (sampling self) (files video_path) in
      match outcome with
      | Raise e => (Raise e, [cap])
      | Ok video =>
          let label := fst (splitext name) in
          (bind (apply_transform self video) (fun v => Ok (v, label)), [cap])
      end
  end.

End DatasetItems.

(** ** The scraper before the table *)

Module Scraping.
Import WebScraping Py.

(** [get_video_links], lines 102 to 105. *)
Definition get_video_links (images : list str) : list str :=
  map (fun img =>
         replace (replace img (lit "thumbs") (lit "videos"))
                 (lit ".png") (lit ".mp4?autoplay=true"))
      images.

(** [extract_data], lines 84 to 89, on what the two [find_all] calls yield:
    the stripped texts of the paragraphs and the [src] of the images. *)
Definition extract_data (texts srcs : list str) : list str * list str :=
  (texts, tl srcs).

(** Lines 130 to 132 of [scrape_with_selenium]: the pairs of one page. *)
Definition page_text_video (texts srcs : list str) : list (str * str) :=
  let (list_text, images) := extract_data texts srcs in
  combine list_text (get_video_links images).

(** Lines 136 to 150: what the loop does with the page buttons, given the
    [class] attribute of each.  [Click i] presses [buttons[i]]. *)
Inductive pagination : Type :=
| Click (i : nat)
| Stop.

Fixpoint first_btn_info (classes : list str) : option nat :=
  match classes with
  | [] => None
  | cls :: rest =>
      if contains cls (lit "btn-info") then Some O
      else option_map S (first_btn_info rest)
  end.

Definition next_page (classes : list str) : pagination :=
  match first_btn_info classes with
  | Some btn_index =>
      if (btn_index + 1 <? length classes)%nat then Click (btn_index + 1)
      else Stop
  | None => Stop
  end.

End Scraping.

Module ScrapingSpec.
Import WebScraping.

(** The order [sort_values] puts rows in: by Text, a missing Text last. *)
Definition Text_le (a b : row) : Prop :=
  match Text a, Text b with
  | Some x, Some y => str_leb x y = true
  | _, None => True
  | None, Some _ => False
  end.

(** A sorting routine to run the examples with: insertion sort. *)
Fixpoint insert_by_Text (r : row) (l : list row) : list row :=
  match l with
  | [] => [r]
  | h :: t =>
      if match Text r, Text h with
         | Some x, Some y => str_leb x y
         | _, None => true
         | None, Some _ => false
         end
      then r :: l else h :: insert_by_Text r t
  end.

Definition insertion_sort (l : list row) : list row :=
  fold_right insert_by_Text [] l.

End ScrapingSpec.

(** ** Properties of [load_video] *)

Module DatasetsProofs.
Import Datasets DatasetsSpec SamplerSemantics.

Lemma to_frame_tensor_rgb frame : to_frame_tensor frame = rgb_planes frame.
Proof.
  unfold to_frame_tensor, permute_2_0_1, cvtColor_BGR2RGB, rgb_planes, plane.
  rewrite !map_map.
  f_equal; [|f_equal; [|f_equal]];
    apply map_ext; intros r; rewrite map_map; reflexivity.
Qed.

Lemma dims_to_frame_tensor frame :
  dims (to_frame_tensor frame) = repeat (frame_size frame) 3.
Proof.
  rewrite to_frame_tensor_rgb. unfold dims, rgb_planes, plane, frame_size. simpl.
  rewrite !map_map.
  f_equal; [|f_equal; [|f_equal]];
    apply map_ext; intros r; apply length_map.
Qed.

Lemma dims_zeros_like t : dims (zeros_like t) = dims t.
Proof.
  unfold dims, zeros_like. rewrite map_map. apply map_ext. intros c.
  rewrite map_map. apply map_ext. intros r. apply length_map.
Qed.

Lemma zeros_like_idem t : zeros_like (zeros_like t) = zeros_like t.
Proof.
  unfold zeros_like. rewrite map_map. apply map_ext. intros c.
  rewrite map_map. apply map_ext. intros r.
  rewrite map_map. reflexivity.
Qed.

Lemma last_frame_snoc frames t : last_frame (frames ++ [t]) = Some t.
Proof. unfold last_frame. rewrite rev_app_distr. reflexivity. Qed.

Lemma last_frame_nil_iff frames : last_frame frames = None <-> frames = [].
Proof.
  unfold last_frame. split.
  - intros H. destruct (rev frames) eqn:E; [|discriminate].
    rewrite <- (rev_involutive frames), E. reflexivity.
  - intros ->. reflexivity.
Qed.

Lemma last_frame_In frames t : last_frame frames = Some t -> In t frames.
Proof.
  unfold last_frame. destruct (rev frames) eqn:E; [discriminate|].
  intros [= ->]. apply in_rev. rewrite E. left. reflexivity.
Qed.

(** The padding loop: [k] copies of the zero frame after a non-empty
    buffer, [IndexError] at once on an empty one. *)
Lemma pad_loop_nonempty k : forall frames t,
  last_frame frames = Some t ->
  pad_loop k frames = Ok (frames ++ repeat (zeros_like t) k).
Proof.
  induction k as [|k IH]; intros frames t Hl; simpl.
  - rewrite app_nil_r. reflexivity.
  - rewrite Hl. rewrite (IH _ (zeros_like t) (last_frame_snoc _ _)).
    rewrite zeros_like_idem, <- app_assoc. reflexivity.
Qed.

Lemma pad_loop_empty k : pad_loop (S k) [] = Raise IndexError.
Proof. reflexivity. Qed.

Lemma stack_uniform frames :
  frames <> [] ->
  (forall u v, In u frames -> In v frames -> dims u = dims v) ->
  stack frames = Ok frames.
Proof.
  destruct frames as [|t rest]; [congruence|]. intros _ H. simpl.
  replace (forallb _ rest) with true; [reflexivity|].
  symmetry. apply forallb_forall. intros u Hu.
  destruct (dims_eq_dec (dims u) (dims t)) as [|n]; [reflexivity|].
  exfalso. apply n. apply H; simpl; auto.
Qed.

Lemma stack_ok frames clip : stack frames = Ok clip -> clip = frames /\ frames <> [].
Proof.
  destruct frames as [|t rest]; simpl; [discriminate|].
  destruct (forallb _ rest); [|discriminate].
  intros [= <-]. split; [reflexivity|discriminate].
Qed.

Lemma retained_In step stream : forall count f,
  In f (retained step count stream) -> In f stream.
Proof.
  induction stream as [|g stream IH]; intros count f; simpl; [tauto|].
  destruct (count mod step =? 0); simpl; intros H.
  - destruct H as [H|H]; [auto|right; eauto].
  - right; eauto.
Qed.

(** The loop, when the step is not zero: it never raises, and the buffer
    receives the retained frames in decode order until it is full. *)
Lemma sample_loop_frames self stream :
  frame_step self <> 0 ->
  forall frames count,
    fst (sample_loop self stream frames count) =
    Ok (frames ++
        map to_frame_tensor
          (firstn (Z.to_nat (num_frames self - Z.of_nat (length frames)))
                  (retained (frame_step self) count stream))).
Proof.
  intros Hs. induction stream as [|f stream IH]; intros frames count; simpl.
  - destruct (Z.ltb_spec (Z.of_nat (length frames)) (num_frames self));
      simpl; rewrite firstn_nil; simpl; rewrite app_nil_r; reflexivity.
  - destruct (Z.ltb_spec (Z.of_nat (length frames)) (num_frames self)) as [Hlt|Hge].
    + destruct (Z.eqb_spec (frame_step self) 0) as [|_]; [contradiction|].
      rewrite IH.
      destruct (count mod frame_step self =? 0).
      * rewrite length_app. simpl length.
        replace (Z.to_nat (num_frames self - Z.of_nat (length frames)))
          with (S (Z.to_nat (num_frames self - Z.of_nat (length frames + 1)))) by lia.
        simpl. rewrite <- app_assoc. reflexivity.
      * reflexivity.
    + simpl. replace (Z.to_nat _) with O by lia. simpl.
      rewrite app_nil_r. reflexivity.
Qed.

(** Stride arithmetic. *)

Lemma mod_zero_gap s a d :
  0 < s -> 0 <= d < s -> a mod s = 0 -> (a + d) mod s = 0 -> d = 0.
Proof.
  intros Hs Hd Ha Had.
  rewrite <- Z.add_mod_idemp_l, Ha in Had by lia. simpl in Had.
  rewrite Z.mod_small in Had by lia. exact Had.
Qed.

Lemma mod_nonzero_gap s a d :
  0 < s -> 0 <= d < s -> a mod s <> 0 -> (a + d) mod s = 0 -> 0 < d.
Proof.
  intros Hs Hd Ha Had.
  destruct (Z.eq_dec d 0) as [->|]; [|lia].
  rewrite Z.add_0_r in Had. contradiction.
Qed.

Lemma retained_nth s : 0 < s ->
  forall stream count d i,
    0 <= d < s -> (count + d) mod s = 0 ->
    nth_error (retained s count stream) i =
    nth_error stream (i * Z.to_nat s + Z.to_nat d).
Proof.
  intros Hs. induction stream as [|f stream IH]; intros count d i Hd Hm.
  - simpl. rewrite !nth_error_nil. reflexivity.
  - cbn [retained].
    destruct (Z.eqb_spec (count mod s) 0) as [Hz|Hnz].
    + assert (d = 0) by (eapply mod_zero_gap; eauto). subst d.
      destruct i as [|i].
      * reflexivity.
      * replace (S i * Z.to_nat s + Z.to_nat 0)%nat
          with (S (i * Z.to_nat s + Z.to_nat (s - 1)))%nat by lia.
        cbn [nth_error]. apply IH; [lia|].
        replace (count + 1 + (s - 1)) with (count + 0 + 1 * s) by lia.
        rewrite Z.mod_add by lia. exact Hm.
    + assert (0 < d) by (eapply mod_nonzero_gap; eauto).
      replace (i * Z.to_nat s + Z.to_nat d)%nat
        with (S (i * Z.to_nat s + Z.to_nat (d - 1)))%nat by lia.
      cbn [nth_error]. apply IH; [lia|].
      replace (count + 1 + (d - 1)) with (count + d) by lia. exact Hm.
Qed.

(** ** The call as a whole *)

Lemma load_video_unfold self video :
  frame_step self <> 0 ->
  load_video self video =
  (bind (pad self (sampled self video)) stack,
   mkCapture (snd (sample_loop self video [] 0)) true).
Proof.
  intros Hs. unfold load_video, sampled. simpl pending.
  pose proof (sample_loop_frames self video Hs [] 0) as H.
  destruct (sample_loop self video [] 0) as [r rest].
  simpl in H. rewrite Z.sub_0_r in H. subst r. reflexivity.
Qed.

Lemma In_firstn {A} (n : nat) (l : list A) x : In x (firstn n l) -> In x l.
Proof.
  intros H. rewrite <- (firstn_skipn n l). apply in_or_app. left. exact H.
Qed.

Lemma sampled_In self video t :
  In t (sampled self video) ->
  exists frame, In frame video /\ t = to_frame_tensor frame.
Proof.
  unfold sampled. intros H. apply in_map_iff in H as (frame & <- & Hin).
  exists frame. split; [|reflexivity].
  apply In_firstn in Hin. eapply retained_In; eauto.
Qed.

Lemma sampled_dims self video :
  uniform video ->
  forall u v, In u (sampled self video) -> In v (sampled self video) ->
              dims u = dims v.
Proof.
  intros Hu u v Hi Hj.
  apply sampled_In in Hi as (f & Hf & ->).
  apply sampled_In in Hj as (g & Hg & ->).
  rewrite !dims_to_frame_tensor, (Hu f g Hf Hg). reflexivity.
Qed.

Lemma sampled_length_le self video :
  Z.of_nat (length (sampled self video)) <= Z.max 0 (num_frames self).
Proof.
  unfold sampled. rewrite length_map.
  pose proof (firstn_le_length (Z.to_nat (num_frames self))
                (retained (frame_step self) 0 video)).
  rewrite length_firstn. lia.
Qed.

Lemma sampled_nonempty self video :
  frame_step self <> 0 -> 0 < num_frames self -> video <> [] ->
  exists t, last_frame (sampled self video) = Some t.
Proof.
  intros Hs Hn Hv. destruct video as [|f video]; [congruence|].
  destruct (last_frame (sampled self (f :: video))) as [t|] eqn:E; [eauto|].
  apply last_frame_nil_iff in E. exfalso. revert E.
  unfold sampled. cbn [retained]. rewrite Z.mod_0_l by exact Hs.
  change (0 =? 0) with true. cbv iota.
  destruct (Z.to_nat (num_frames self)) as [|k] eqn:Ek; [lia|].
  simpl. discriminate.
Qed.

Lemma sampled_nth self video i :
  0 < frame_step self -> (i < Z.to_nat (num_frames self))%nat ->
  nth_error (sampled self video) i =
  option_map to_frame_tensor (nth_error video (decode_position self i)).
Proof.
  intros Hs Hi. unfold sampled, decode_position.
  rewrite nth_error_map, nth_error_firstn.
  destruct (Nat.ltb_spec i (Z.to_nat (num_frames self))) as [_|]; [|lia].
  rewrite (retained_nth (frame_step self) Hs video 0 0 i) by (rewrite ?Z.mod_0_l; lia).
  rewrite Nat.add_0_r. reflexivity.
Qed.

Lemma sampled_full self video :
  0 < num_frames self -> 0 < frame_step self ->
  (num_frames self - 1) * frame_step self + 1 <= Z.of_nat (length video) ->
  length (sampled self video) = Z.to_nat (num_frames self).
Proof.
  intros Hn Hs Hlen.
  assert (Hlt : (Z.to_nat (num_frames self) - 1 < length (sampled self video))%nat).
  { apply nth_error_Some. rewrite sampled_nth by lia.
    destruct (nth_error video _) eqn:E; [discriminate|].
    apply nth_error_None in E. unfold decode_position in E. nia. }
  pose proof (sampled_length_le self video). lia.
Qed.

(** The clip of a call that decodes at least one frame: the real frames,
    then zero frames shaped like the last of them up to [num_frames]. *)
Lemma load_video_padded self video t :
  frame_step self <> 0 -> uniform video ->
  last_frame (sampled self video) = Some t ->
  fst (load_video self video) =
  Ok (sampled self video ++
      repeat (zeros_like t)
        (Z.to_nat (num_frames self) - length (sampled self video))).
Proof.
  intros Hs Hu Hl. rewrite load_video_unfold by exact Hs. simpl fst.
  assert (Hne : sampled self video <> []).
  { intros E. rewrite E in Hl. discriminate. }
  assert (Hst : forall k, stack (sampled self video ++ repeat (zeros_like t) k)
                          = Ok (sampled self video ++ repeat (zeros_like t) k)).
  { intros k. apply stack_uniform.
    - intros E. apply app_eq_nil in E. tauto.
    - assert (Hd : forall u, In u (sampled self video ++ repeat (zeros_like t) k) ->
                             dims u = dims t).
      { intros u Hin. apply in_app_or in Hin as [Hin|Hin].
        - apply (sampled_dims self video Hu); [exact Hin|].
          apply last_frame_In. exact Hl.
        - apply repeat_spec in Hin. subst u. apply dims_zeros_like. }
      intros u v Hi Hj. rewrite (Hd u Hi), (Hd v Hj). reflexivity. }
  unfold pad.
  destruct (Z.ltb_spec (Z.of_nat (length (sampled self video))) (num_frames self)).
  - rewrite (pad_loop_nonempty _ _ t Hl). simpl bind.
    replace (Z.to_nat (num_frames self - Z.of_nat (length (sampled self video))))
      with (Z.to_nat (num_frames self) - length (sampled self video))%nat by lia.
    apply Hst.
  - simpl bind.
    replace (Z.to_nat (num_frames self) - length (sampled self video))%nat
      with O by lia.
    specialize (Hst O). simpl repeat in Hst. rewrite app_nil_r in Hst.
    simpl repeat. rewrite app_nil_r. exact Hst.
Qed.

(** A source long enough for [num_frames] retained frames: the clip is made
    of real frames only, the [i]-th one decoded at position [i * frame_step]. *)
Lemma load_video_full self video :
  0 < num_frames self -> 0 < frame_step self ->
  (num_frames self - 1) * frame_step self + 1 <= Z.of_nat (length video) ->
  uniform video ->
  fst (load_video self video) = Ok (sampled self video) /\
  length (sampled self video) = Z.to_nat (num_frames self) /\
  forall i, (i < Z.to_nat (num_frames self))%nat ->
    exists frame,
      nth_error video (decode_position self i) = Some frame /\
      nth_error (sampled self video) i = Some (to_frame_tensor frame).
Proof.
  intros Hn Hs Hlen Hu.
  pose proof (sampled_full self video Hn Hs Hlen) as Hfull.
  split; [|split].
  - destruct (sampled_nonempty self video) as [t Ht]; [lia|lia| |].
    { intros ->. simpl in Hlen. nia. }
    rewrite (load_video_padded self video t) by (auto; lia).
    rewrite Hfull, Nat.sub_diag. simpl. rewrite app_nil_r. reflexivity.
  - exact Hfull.
  - intros i Hi.
    assert (Hin : (i < length (sampled self video))%nat) by lia.
    apply nth_error_Some in Hin.
    rewrite sampled_nth in * by lia.
    destruct (nth_error video (decode_position self i)) as [frame|]; [|simpl in Hin; congruence].
    exists frame. split; reflexivity.
Qed.

Lemma decode_position_injective self i j :
  0 < frame_step self -> i <> j -> decode_position self i <> decode_position self j.
Proof. unfold decode_position. nia. Qed.

Lemma decode_position_succ self i :
  decode_position self (S i) = (decode_position self i + Z.to_nat (frame_step self))%nat.
Proof. unfold decode_position. lia. Qed.

Lemma uniform_sample_frames ks : uniform (map sample_frame ks).
Proof.
  intros f g Hf Hg.
  apply in_map_iff in Hf as (a & <- & _). apply in_map_iff in Hg as (b & <- & _).
  reflexivity.
Qed.

(** C2. With [num_frames > 0], [frame_step > 0] and a video of at least
    [num_frames * frame_step] frames of one size, [load_video] returns a
    clip of exactly [num_frames] frames; its [i]-th frame is the converted
    frame of decode position [i * frame_step], so the retained positions
    are pairwise distinct and consecutive ones are [frame_step] apart. *)
Theorem load_video_spaced_frames self video :
  0 < num_frames self -> 0 < frame_step self ->
  num_frames self * frame_step self <= Z.of_nat (length video) ->
  uniform video ->
  exists clip,
    fst (load_video self video) = Ok clip /\
    length clip = Z.to_nat (num_frames self) /\
    (forall i, (i < Z.to_nat (num_frames self))%nat ->
       exists frame,
         nth_error video (decode_position self i) = Some frame /\
         nth_error clip i = Some (to_frame_tensor frame)) /\
    (forall i j, i <> j -> decode_position self i <> decode_position self j) /\
    (forall i, decode_position self (S i) =
               (decode_position self i + Z.to_nat (frame_step self))%nat).
Proof.
  intros Hn Hs Hlen Hu.
  destruct (load_video_full self video Hn Hs) as (Hok & Hl & Hnth); [nia|exact Hu|].
  exists (sampled self video). repeat split; auto.
  - intros i j. apply decode_position_injective. exact Hs.
  - apply decode_position_succ.
Qed.

Lemma load_video_spaced_frames_witness :
  exists clip,
    fst (load_video (mkDataset 2 3) (map sample_frame [1; 2; 3; 4; 5; 6])) = Ok clip /\
    length clip = 2%nat.
Proof.
  destruct (load_video_spaced_frames (mkDataset 2 3)
              (map sample_frame [1; 2; 3; 4; 5; 6])) as (clip & H1 & H2 & _).
  - simpl; lia.
  - simpl; lia.
  - simpl; lia.
  - apply uniform_sample_frames.
  - exists clip. split; [exact H1|exact H2].
Defined.

Lemma tensor_at_zeros_like t c h w :
  tensor_at (zeros_like t) c h w = option_map (fun _ => 0) (tensor_at t c h w).
Proof.
  unfold tensor_at, zeros_like. rewrite nth_error_map.
  destruct (nth_error t c) as [channel|]; simpl; [|reflexivity].
  rewrite nth_error_map.
  destruct (nth_error channel h) as [line|]; simpl; [|reflexivity].
  apply nth_error_map.
Qed.

Lemma zeros_like_all_zero t : all_zero (zeros_like t).
Proof.
  intros c h w v. rewrite tensor_at_zeros_like.
  destruct (tensor_at t c h w); simpl; congruence.
Qed.

(** Whenever a frame is decoded, the clip has [num_frames] frames. *)
Lemma load_video_clip_length self video :
  0 < num_frames self -> frame_step self <> 0 -> video <> [] -> uniform video ->
  exists clip, fst (load_video self video) = Ok clip /\
               length clip = Z.to_nat (num_frames self).
Proof.
  intros Hn Hs Hv Hu.
  destruct (sampled_nonempty self video Hs Hn Hv) as [t Ht].
  eexists. split; [apply (load_video_padded self video t Hs Hu Ht)|].
  rewrite length_app, repeat_length.
  pose proof (sampled_length_le self video). lia.
Qed.

(** C1, at a video that decodes to no frame (a file that cannot be read)
    and the default configuration: the padding loop reads [frames[-1]] of
    the empty buffer, and the call raises [IndexError] where the invariant
    asks for a clip of 13 frames. *)
Theorem load_video_unreadable_default :
  load_video default_dataset [] = (Raise IndexError, mkCapture [] true).
Proof. reflexivity. Qed.

(** C9. A video that decodes to no frame makes [load_video] raise
    [IndexError], whatever the step, as soon as [num_frames > 0]: nothing
    is returned, neither a short clip nor a clip of zero frames. *)
Theorem load_video_empty_source_raises self :
  0 < num_frames self ->
  load_video self [] = (Raise IndexError, mkCapture [] true).
Proof.
  intros Hn. unfold load_video, pad. simpl.
  destruct (Z.ltb_spec 0 (num_frames self)) as [_|]; [|lia].
  simpl. destruct (Z.ltb_spec 0 (num_frames self)) as [_|]; [|lia].
  rewrite Z.sub_0_r.
  destruct (Z.to_nat (num_frames self)) eqn:E; [lia|]. reflexivity.
Qed.

Lemma load_video_empty_source_raises_witness :
  0 < num_frames (mkDataset 5 1) /\
  load_video (mkDataset 5 1) [] = (Raise IndexError, mkCapture [] true).
Proof.
  split; [simpl; lia|].
  apply (load_video_empty_source_raises (mkDataset 5 1)). simpl. lia.
Defined.

(** C3. With [num_frames = 13] and [frame_step = 4], a video of exactly ten
    frames gives a clip of 13 frames: the converted frames of decode
    positions 0, 4 and 8, in that order, then ten zero frames of the size of
    the last of them. *)
Theorem load_video_13_4_ten_frames f0 f1 f2 f3 f4 f5 f6 f7 f8 f9 :
  uniform [f0; f1; f2; f3; f4; f5; f6; f7; f8; f9] ->
  exists zero,
    fst (load_video (mkDataset 13 4) [f0; f1; f2; f3; f4; f5; f6; f7; f8; f9]) =
    Ok ([to_frame_tensor f0; to_frame_tensor f4; to_frame_tensor f8]
        ++ repeat zero 10) /\
    length ([to_frame_tensor f0; to_frame_tensor f4; to_frame_tensor f8]
            ++ repeat zero 10) = 13%nat /\
    all_zero zero /\
    dims zero = dims (to_frame_tensor f8).
Proof.
  intros Hu. exists (zeros_like (to_frame_tensor f8)).
  split; [|split; [reflexivity|split]].
  - rewrite (load_video_padded _ _ (to_frame_tensor f8)); [reflexivity| |exact Hu|reflexivity].
    simpl. lia.
  - apply zeros_like_all_zero.
  - apply dims_zeros_like.
Qed.

Lemma load_video_13_4_ten_frames_witness :
  exists zero,
    fst (load_video (mkDataset 13 4) (map sample_frame [0; 1; 2; 3; 4; 5; 6; 7; 8; 9])) =
    Ok ([to_frame_tensor (sample_frame 0); to_frame_tensor (sample_frame 4);
         to_frame_tensor (sample_frame 8)] ++ repeat zero 10).
Proof.
  destruct (load_video_13_4_ten_frames
              (sample_frame 0) (sample_frame 1) (sample_frame 2) (sample_frame 3)
              (sample_frame 4) (sample_frame 5) (sample_frame 6) (sample_frame 7)
              (sample_frame 8) (sample_frame 9)) as (zero & H & _).
  - apply (uniform_sample_frames [0; 1; 2; 3; 4; 5; 6; 7; 8; 9]).
  - exists zero. exact H.
Defined.

(** C10, as amended.  With [num_frames > 0] and [frame_step > 0], a video
    of at least [(num_frames - 1) * frame_step + 1] frames of one size
    already gives a clip of [num_frames] real frames, the [i]-th decoded at
    position [i * frame_step], and no zero frame.  That bound never exceeds
    [num_frames * frame_step]; it is smaller exactly when
    [frame_step > 1], and the same number when [frame_step = 1]. *)
Theorem load_video_tight_bound self video :
  0 < num_frames self -> 0 < frame_step self ->
  (num_frames self - 1) * frame_step self + 1 <= Z.of_nat (length video) ->
  uniform video ->
  (exists clip,
     fst (load_video self video) = Ok clip /\
     length clip = Z.to_nat (num_frames self) /\
     forall i, (i < Z.to_nat (num_frames self))%nat ->
       exists frame,
         nth_error video (decode_position self i) = Some frame /\
         nth_error clip i = Some (to_frame_tensor frame)) /\
  (num_frames self - 1) * frame_step self + 1 <= num_frames self * frame_step self /\
  (1 < frame_step self <->
   (num_frames self - 1) * frame_step self + 1 < num_frames self * frame_step self) /\
  (frame_step self = 1 ->
   (num_frames self - 1) * frame_step self + 1 = num_frames self * frame_step self).
Proof.
  intros Hn Hs Hlen Hu. split; [|split; [|split]].
  - exists (sampled self video). apply load_video_full; assumption.
  - nia.
  - split; nia.
  - intros ->. lia.
Qed.

(** C10, as stated, fails at [frame_step = 1]: the two bounds are the same
    number there, so the requirement is not strictly weaker for every
    configuration; and with one frame fewer the clip is padded. *)
Lemma load_video_tight_bound_not_strict :
  (num_frames (mkDataset 3 1) - 1) * frame_step (mkDataset 3 1) + 1 =
    num_frames (mkDataset 3 1) * frame_step (mkDataset 3 1) /\
  fst (load_video (mkDataset 3 1) (map sample_frame [1; 2])) =
    Ok [to_frame_tensor (sample_frame 1); to_frame_tensor (sample_frame 2);
        zeros_like (to_frame_tensor (sample_frame 2))].
Proof. split; reflexivity. Qed.

(** The default configuration on 49 frames, three fewer than
    [13 * 4 = 52]. *)
Lemma load_video_tight_bound_witness :
  exists clip,
    fst (load_video default_dataset (map sample_frame (repeat 7 49))) = Ok clip /\
    length clip = 13%nat.
Proof.
  destruct (load_video_tight_bound default_dataset (map sample_frame (repeat 7 49)))
    as ((clip & H1 & H2 & _) & _).
  - simpl; lia.
  - simpl; lia.
  - simpl; lia.
  - apply uniform_sample_frames.
  - exists clip. split; [exact H1|exact H2].
Defined.

(** ** Release of the handle *)

(** The loop raises exactly when it evaluates [frame_count % 0]: the step
    is zero and the first iteration decodes a frame. *)
Lemma load_video_zero_step self video :
  frame_step self = 0 ->
  load_video self video =
  if (0 <? num_frames self) && negb (match video with [] => true | _ => false end)
  then (Raise ZeroDivisionError, mkCapture (tl video) false)
  else (bind (pad self []) stack, mkCapture video true).
Proof.
  intros Hs. unfold load_video. simpl pending. simpl released.
  destruct video as [|f video]; simpl.
  - destruct (0 <? num_frames self); reflexivity.
  - destruct (0 <? num_frames self); simpl; [|reflexivity].
    rewrite Hs. reflexivity.
Qed.

Lemma pad_stack_no_zero_division self frames :
  bind (pad self frames) stack <> Raise ZeroDivisionError.
Proof.
  unfold pad.
  assert (Hst : forall l, stack l <> Raise ZeroDivisionError).
  { intros [|t l]; simpl; [discriminate|].
    destruct (forallb _ l); discriminate. }
  assert (Hpl : forall k l, bind (pad_loop k l) stack <> Raise ZeroDivisionError).
  { induction k as [|k IH]; intros l; simpl; [apply Hst|].
    destruct (last_frame l); [apply IH|discriminate]. }
  destruct (_ <? _); [apply Hpl|apply Hst].
Qed.

(** C4, as amended.  The handle is released when the call ends exactly on
    the paths on which the sampling loop ended without an exception: every
    call with a step other than zero, whether it returns a clip or raises
    from the padding or the stacking, and the calls with step zero that
    decode no frame.  The call that leaves the loop by [ZeroDivisionError]
    ends with the handle not released. *)
Theorem load_video_release self video :
  (released (snd (load_video self video)) = true <->
   fst (load_video self video) <> Raise ZeroDivisionError) /\
  (fst (load_video self video) = Raise ZeroDivisionError <->
   frame_step self = 0 /\ 0 < num_frames self /\ video <> []).
Proof.
  destruct (Z.eq_dec (frame_step self) 0) as [Hz|Hnz].
  - rewrite (load_video_zero_step self video Hz).
    destruct (Z.ltb_spec 0 (num_frames self)) as [Hn|Hn];
      destruct video as [|f video]; simpl;
      (split; split;
       try (intros; discriminate);
       try (intros _; apply pad_stack_no_zero_division);
       try (intros _; reflexivity);
       try (intros H; exfalso; now apply (pad_stack_no_zero_division self []) in H);
       try (intros (_ & H1 & H2); (lia || congruence));
       try (intros H; exfalso; apply H; reflexivity);
       try (intros _; repeat split; (assumption || discriminate))).
  - rewrite (load_video_unfold self video Hnz). simpl.
    split; split.
    + intros _. apply pad_stack_no_zero_division.
    + reflexivity.
    + intros H. exfalso. now apply pad_stack_no_zero_division in H.
    + intros (H & _). contradiction.
Qed.

(** C4, as stated, fails for a dataset built with [frame_step = 0]: the
    first iteration raises, and the call ends with its handle open. *)
Lemma load_video_zero_step_not_released :
  fst (load_video (mkDataset 13 0) [sample_frame 1]) = Raise ZeroDivisionError /\
  released (snd (load_video (mkDataset 13 0) [sample_frame 1])) = false.
Proof. split; reflexivity. Qed.

(** ** Layout of the frames *)

Lemma tensor_at_rgb_planes frame h w :
  tensor_at (rgb_planes frame) 0 h w = option_map red (pixel_at frame h w) /\
  tensor_at (rgb_planes frame) 1 h w = option_map green (pixel_at frame h w) /\
  tensor_at (rgb_planes frame) 2 h w = option_map blue (pixel_at frame h w).
Proof.
  unfold tensor_at, rgb_planes, plane, pixel_at. simpl.
  rewrite !nth_error_map.
  destruct (nth_error frame h) as [line|]; simpl; [|auto].
  rewrite !nth_error_map. auto.
Qed.

(** What a returned clip is made of: real frames, then copies of the zero
    frame of the last real one. *)
Lemma load_video_ok_inv self video clip :
  fst (load_video self video) = Ok clip ->
  exists k, clip = sampled self video ++ repeat (zeros_like (last (sampled self video) [])) k
            /\ sampled self video <> [].
Proof.
  intros H.
  destruct (Z.eq_dec (frame_step self) 0) as [Hz|Hnz].
  - exfalso. rewrite (load_video_zero_step self video Hz) in H.
    destruct (_ && _); simpl in H; [discriminate|].
    unfold pad in H. simpl in H.
    destruct (0 <? num_frames self); [|discriminate].
    destruct (Z.to_nat _); discriminate.
  - rewrite (load_video_unfold self video Hnz) in H. simpl in H.
    destruct (last_frame (sampled self video)) as [t|] eqn:El.
    + assert (Hlast : last (sampled self video) [] = t).
      { unfold last_frame in El.
        rewrite <- (rev_involutive (sampled self video)).
        destruct (rev (sampled self video)) as [|x l]; [discriminate|].
        injection El as ->. simpl. apply last_last. }
      assert (Hne : sampled self video <> []).
      { intros E. rewrite E in El. discriminate. }
      unfold pad in H. destruct (_ <? _).
      * rewrite (pad_loop_nonempty _ _ t El) in H. simpl in H.
        apply stack_ok in H as [-> _]. rewrite Hlast. eauto.
      * simpl in H. apply stack_ok in H as [-> _]. exists O.
        simpl. rewrite app_nil_r. auto.
    + exfalso. apply last_frame_nil_iff in El. rewrite El in H.
      unfold pad in H. simpl in H.
      destruct (0 <? num_frames self); [|discriminate].
      destruct (Z.to_nat _); discriminate.
Qed.

(** A returned clip, in full. *)
Lemma load_video_ok_clip self video clip :
  fst (load_video self video) = Ok clip ->
  frame_step self <> 0 /\
  sampled self video <> [] /\
  clip = sampled self video ++
         repeat (zeros_like (last (sampled self video) []))
                (Z.to_nat (num_frames self) - length (sampled self video)).
Proof.
  intros H.
  pose proof (load_video_ok_inv self video clip H) as (k0 & _ & Hne).
  assert (Hs : frame_step self <> 0).
  { intros Hz. rewrite (load_video_zero_step self video Hz) in H.
    destruct (_ && _); simpl in H; [discriminate|].
    unfold pad in H. simpl in H.
    destruct (0 <? num_frames self); [|discriminate].
    destruct (Z.to_nat _); discriminate. }
  split; [exact Hs|]. split; [exact Hne|].
  rewrite (load_video_unfold self video Hs) in H. simpl in H.
  destruct (exists_last Hne) as (l & t & E).
  assert (El : last_frame (sampled self video) = Some t).
  { rewrite E. apply last_frame_snoc. }
  assert (Hlast : last (sampled self video) [] = t).
  { rewrite E. apply last_last. }
  rewrite Hlast.
  pose proof (sampled_length_le self video) as Hle.
  unfold pad in H.
  destruct (Z.ltb_spec (Z.of_nat (length (sampled self video))) (num_frames self)).
  - rewrite (pad_loop_nonempty _ _ t El) in H. simpl in H.
    apply stack_ok in H as [-> _]. do 2 f_equal. lia.
  - simpl in H. apply stack_ok in H as [-> _].
    replace (Z.to_nat (num_frames self) - length (sampled self video))%nat with O by lia.
    simpl. rewrite app_nil_r. reflexivity.
Qed.

Lemma last_map {A B} (f : A -> B) l d d' :
  l <> [] -> last (map f l) d' = f (last l d).
Proof.
  induction l as [|x [|y l] IH]; intros H; [congruence|reflexivity|].
  change (last (map f (x :: y :: l)) d') with (last (map f (y :: l)) d').
  change (last (x :: y :: l) d) with (last (y :: l) d).
  apply IH. discriminate.
Qed.

(** C5. A returned clip has [num_frames] frames, each of three planes,
    channel first.  Its first frames are the retained frames of the video,
    at least one and in decode order, and each of them holds in plane 0
    the red values of the decoded frame, in plane 1 the green ones and in
    plane 2 the blue ones, row by row and column by column, whereas OpenCV
    delivered the channels in the order blue, green, red.  The frames
    after them, and no others, are padding: zeros, in three planes of the
    size of the last retained frame. *)
Theorem load_video_frames_chw_rgb self video clip :
  fst (load_video self video) = Ok clip ->
  exists real,
    real = firstn (Z.to_nat (num_frames self)) (retained (frame_step self) 0 video) /\
    real <> [] /\
    length clip = Z.to_nat (num_frames self) /\
    (forall i frame,
       nth_error real i = Some frame ->
       exists t,
         nth_error clip i = Some t /\
         dims t = repeat (frame_size frame) 3 /\
         forall h w,
           tensor_at t 0 h w = option_map red (pixel_at frame h w) /\
           tensor_at t 1 h w = option_map green (pixel_at frame h w) /\
           tensor_at t 2 h w = option_map blue (pixel_at frame h w)) /\
    (forall i t,
       (length real <= i)%nat -> nth_error clip i = Some t ->
       all_zero t /\ dims t = repeat (frame_size (last real [])) 3) /\
    (0 < frame_step self ->
     forall i, (i < Z.to_nat (num_frames self))%nat ->
               nth_error real i = nth_error video (decode_position self i)).
Proof.
  intros H. apply load_video_ok_clip in H as (Hs & Hne & ->).
  set (real := firstn (Z.to_nat (num_frames self)) (retained (frame_step self) 0 video)).
  assert (Hsam : sampled self video = map to_frame_tensor real) by reflexivity.
  assert (Hreal : real <> []).
  { intros E. apply Hne. rewrite Hsam, E. reflexivity. }
  exists real. split; [reflexivity|]. split; [exact Hreal|].
  split; [|split; [|split]].
  - rewrite length_app, repeat_length.
    pose proof (sampled_length_le self video). lia.
  - intros i frame Hi. exists (to_frame_tensor frame). split; [|split].
    + rewrite nth_error_app1.
      * rewrite Hsam. apply map_nth_error. exact Hi.
      * rewrite Hsam, length_map. apply nth_error_Some. congruence.
    + apply dims_to_frame_tensor.
    + intros h w. rewrite to_frame_tensor_rgb. apply tensor_at_rgb_planes.
  - intros i t Hi Ht.
    rewrite nth_error_app2 in Ht by (rewrite Hsam, length_map; exact Hi).
    apply nth_error_In, repeat_spec in Ht. subst t.
    split; [apply zeros_like_all_zero|].
    rewrite dims_zeros_like, Hsam, (last_map to_frame_tensor real []) by exact Hreal.
    apply dims_to_frame_tensor.
  - intros Hpos i Hi. unfold real. rewrite nth_error_firstn.
    destruct (Nat.ltb_spec i (Z.to_nat (num_frames self))); [|lia].
    rewrite (retained_nth (frame_step self) Hpos video 0 0 i)
      by (rewrite ?Z.mod_0_l; lia).
    unfold decode_position. rewrite Nat.add_0_r. reflexivity.
Qed.

Lemma load_video_frames_chw_rgb_witness :
  exists real,
    real = firstn (Z.to_nat 2) (retained 1 0 [sample_frame 5]) /\
    length [to_frame_tensor (sample_frame 5);
            zeros_like (to_frame_tensor (sample_frame 5))] = Z.to_nat 2.
Proof.
  destruct (load_video_frames_chw_rgb (mkDataset 2 1) [sample_frame 5]
              [to_frame_tensor (sample_frame 5);
               zeros_like (to_frame_tensor (sample_frame 5))]
              eq_refl)
    as (real & Hr & _ & Hl & _).
  exists real. split; [exact Hr|exact Hl].
Defined.

(** ** Determinism *)

Section Determinism.

Variable source : Type.
Variable read : source -> option ndarray -> source -> Prop.

(** The source is deterministic: from a state, [read] has one answer. *)
Hypothesis read_deterministic :
  forall cap r1 cap1 r2 cap2,
    read cap r1 cap1 -> read cap r2 cap2 -> r1 = r2 /\ cap1 = cap2.

Variable self : SignLanguageDataset.

Lemma sample_run_deterministic cap frames count out1 cap1 :
  sample_run source read self cap frames count out1 cap1 ->
  forall out2 cap2,
    sample_run source read self cap frames count out2 cap2 ->
    out1 = out2 /\ cap1 = cap2.
Proof.
  induction 1 as [cap frames count Hfull
                 |cap cap' frames count Hlt Hread
                 |cap cap' frame frames count Hlt Hread Hzero
                 |cap cap' cap'' frame frames count out Hlt Hread Hstep Hmod Hrun IH
                 |cap cap' cap'' frame frames count out Hlt Hread Hstep Hmod Hrun IH];
    intros out2 cap2 H2; inversion H2; subst;
    try lia;
    try match goal with
        | Ha : read ?c _ _, Hb : read ?c _ _ |- _ =>
            destruct (read_deterministic _ _ _ _ _ Ha Hb) as [Er Ec];
            try discriminate; try (injection Er as Er); subst
        end;
    try contradiction; try congruence; auto.
Qed.

(** C6. Two calls with one configuration on a deterministic source, one
    that from a given state always delivers the same frame or the same end
    of stream, cannot end differently: they return the same clip, value
    for value, or raise the same exception. *)
Theorem load_video_deterministic cap out1 out2 :
  load_video_run source read self cap out1 ->
  load_video_run source read self cap out2 ->
  out1 = out2.
Proof.
  intros H1 H2. destruct H1 as [e1 c1 R1|f1 c1 R1], H2 as [e2 c2 R2|f2 c2 R2];
    destruct (sample_run_deterministic _ _ _ _ _ R1 _ _ R2) as [E _];
    congruence.
Qed.

End Determinism.

Lemma file_read_deterministic cap r1 cap1 r2 cap2 :
  file_read cap r1 cap1 -> file_read cap r2 cap2 -> r1 = r2 /\ cap1 = cap2.
Proof. intros H1 H2. destruct H1; inversion H2; subst; auto. Qed.

(** The function [sample_loop] computes the one run on a file. *)
Lemma sample_loop_run self stream : forall frames count,
  sample_run (list ndarray) file_read self stream frames count
    (fst (sample_loop self stream frames count))
    (snd (sample_loop self stream frames count)).
Proof.
  induction stream as [|f stream IH]; intros frames count; cbn [sample_loop].
  - destruct (Z.ltb_spec (Z.of_nat (length frames)) (num_frames self)).
    + apply run_break; [assumption|constructor].
    + apply run_full. assumption.
  - destruct (Z.ltb_spec (Z.of_nat (length frames)) (num_frames self)).
    + destruct (Z.eqb_spec (frame_step self) 0).
      * eapply run_zero_step; [assumption|constructor|assumption].
      * destruct (Z.eqb_spec (count mod frame_step self) 0).
        -- eapply run_retain; [assumption|constructor|assumption|assumption|apply IH].
        -- eapply run_skip; [assumption|constructor|assumption|assumption|apply IH].
    + apply run_full. assumption.
Qed.

(** [load_video] computes the one outcome of a call on a file. *)
Lemma load_video_run_file self video :
  load_video_run (list ndarray) file_read self video (fst (load_video self video)).
Proof.
  unfold load_video. simpl pending.
  pose proof (sample_loop_run self video [] 0) as H.
  destruct (sample_loop self video [] 0) as [[frames|e] rest]; simpl in *.
  - eapply run_returns. exact H.
  - eapply run_raises. exact H.
Qed.

Lemma load_video_deterministic_witness :
  fst (load_video default_dataset (map sample_frame [1; 2; 3; 4; 5])) =
  fst (load_video default_dataset (map sample_frame [1; 2; 3; 4; 5])).
Proof.
  apply (load_video_deterministic (list ndarray) file_read file_read_deterministic
           default_dataset (map sample_frame [1; 2; 3; 4; 5])).
  - apply load_video_run_file.
  - apply load_video_run_file.
Defined.

(** On a file, the outcomes of a call are the one [load_video] computes. *)
Lemma load_video_run_file_iff self video out :
  load_video_run (list ndarray) file_read self video out <->
  out = fst (load_video self video).
Proof.
  split.
  - intros H. pose proof (sample_loop_run self video [] 0) as R.
    unfold load_video. simpl pending.
    destruct H as [e c R1|f c R1];
      destruct (sample_run_deterministic _ _ file_read_deterministic _ _ _ _ _ _ R1 _ _ R)
        as [E _];
      destruct (sample_loop self video [] 0) as [[frames|e'] rest]; simpl in E;
      try discriminate; injection E as <-; reflexivity.
  - intros ->. apply load_video_run_file.
Qed.

(** The clip depends on the video through the frames the loop decodes
    only: at most [(num_frames - 1) * frame_step + 1] of them. *)
Lemma sampled_prefix self video1 video2 :
  0 < frame_step self ->
  firstn (Z.to_nat ((num_frames self - 1) * frame_step self + 1)) video1 =
  firstn (Z.to_nat ((num_frames self - 1) * frame_step self + 1)) video2 ->
  sampled self video1 = sampled self video2.
Proof.
  intros Hs Hp. apply nth_error_ext. intros i.
  destruct (Nat.lt_ge_cases i (Z.to_nat (num_frames self))) as [Hi|Hi].
  - rewrite !sampled_nth by assumption. f_equal.
    set (m := Z.to_nat ((num_frames self - 1) * frame_step self + 1)) in *.
    assert (Hj : (decode_position self i < m)%nat).
    { unfold decode_position, m. nia. }
    apply Nat.ltb_lt in Hj.
    pose proof (nth_error_firstn m video1 (decode_position self i)) as E1.
    pose proof (nth_error_firstn m video2 (decode_position self i)) as E2.
    rewrite Hj in E1, E2. rewrite <- E1, <- E2, Hp. reflexivity.
  - pose proof (sampled_length_le self video1).
    pose proof (sampled_length_le self video2).
    transitivity (@None tensor); [|symmetry]; apply nth_error_None; lia.
Qed.

Lemma load_video_reads_prefix self video1 video2 :
  0 < frame_step self ->
  firstn (Z.to_nat ((num_frames self - 1) * frame_step self + 1)) video1 =
  firstn (Z.to_nat ((num_frames self - 1) * frame_step self + 1)) video2 ->
  fst (load_video self video1) = fst (load_video self video2).
Proof.
  intros Hs Hp. rewrite !load_video_unfold by lia. simpl.
  rewrite (sampled_prefix self video1 video2 Hs Hp). reflexivity.
Qed.

End DatasetsProofs.

(** ** Properties of the post-processing of the scraped table *)

Module WebScrapingProofs.
Import WebScraping WebScrapingSpec ScrapingSpec.

Section RegexProofs.

Variable isdecimal : N -> bool.

Lemma existsb_eqb_In c cls : existsb (N.eqb c) cls = true <-> In c cls.
Proof.
  rewrite existsb_exists. split.
  - intros (x & Hx & E). apply N.eqb_eq in E. subst. exact Hx.
  - intros H. exists c. split; [exact H|apply N.eqb_refl].
Qed.

(** Matching at the start of a string: a prefix is accepted atom by atom,
    and the groups are the characters under the group atoms. *)
Lemma match_here_sound pat : forall s groups,
  match_here isdecimal pat s = Some groups ->
  exists seg post,
    s = seg ++ post /\ Forall2 (atom_accepts isdecimal) pat seg /\
    groups = captured pat seg.
Proof.
  induction pat as [|a pat IH]; intros s groups H.
  - injection H as <-. exists [], s. repeat split. constructor.
  - destruct s as [|c s]; [discriminate|]. cbn [match_here] in H.
    destruct a as [x| |cls].
    + destruct (N.eqb_spec c x) as [->|]; [|discriminate].
      apply IH in H as (seg & post & -> & HF & ->).
      exists (x :: seg), post. repeat split. constructor; [reflexivity|exact HF].
    + destruct (isdecimal c) eqn:Hd; [|discriminate].
      apply IH in H as (seg & post & -> & HF & ->).
      exists (c :: seg), post. repeat split. constructor; [exact Hd|exact HF].
    + destruct (existsb (N.eqb c) cls) eqn:Hc; [|discriminate].
      destruct (match_here isdecimal pat s) as [g|] eqn:Hm; [|discriminate].
      injection H as <-.
      apply IH in Hm as (seg & post & -> & HF & ->).
      exists (c :: seg), post. repeat split.
      constructor; [apply existsb_eqb_In; exact Hc|exact HF].
Qed.

Lemma match_here_complete pat seg post :
  Forall2 (atom_accepts isdecimal) pat seg ->
  match_here isdecimal pat (seg ++ post) = Some (captured pat seg).
Proof.
  induction 1 as [|a c pat seg Hac HF IH]; [reflexivity|].
  cbn [match_here app]. rewrite IH.
  destruct a as [x| |cls]; simpl in Hac |- *.
  - subst. rewrite N.eqb_refl. reflexivity.
  - rewrite Hac. reflexivity.
  - apply existsb_eqb_In in Hac. rewrite Hac. reflexivity.
Qed.

(** [re_search] returns the match of the leftmost position that has one. *)
Lemma re_search_some pat : forall s groups,
  re_search isdecimal pat s = Some groups ->
  exists pre suf,
    s = pre ++ suf /\ match_here isdecimal pat suf = Some groups /\
    forall pre' suf', s = pre' ++ suf' -> (length pre' < length pre)%nat ->
                      match_here isdecimal pat suf' = None.
Proof.
  induction s as [|c s IH]; intros groups H; cbn [re_search] in H.
  - destruct (match_here isdecimal pat []) eqn:E; [|discriminate].
    injection H as <-. exists [], []. repeat split; [exact E|].
    intros pre' suf' _ Hl. simpl in Hl. lia.
  - destruct (match_here isdecimal pat (c :: s)) eqn:E.
    + injection H as <-. exists [], (c :: s). repeat split; [exact E|].
      intros pre' suf' _ Hl. simpl in Hl. lia.
    + apply IH in H as (pre & suf & -> & Hm & Hfirst).
      exists (c :: pre), suf. repeat split; [exact Hm|].
      intros pre' suf' Hs Hl. destruct pre' as [|c' pre'].
      * simpl in Hs. subst suf'. exact E.
      * injection Hs as <- Hs. apply (Hfirst pre' suf' Hs). simpl in Hl. lia.
Qed.

Lemma re_search_first pat groups suf : forall pre,
  match_here isdecimal pat suf = Some groups ->
  (forall pre' suf', pre ++ suf = pre' ++ suf' -> (length pre' < length pre)%nat ->
                     match_here isdecimal pat suf' = None) ->
  re_search isdecimal pat (pre ++ suf) = Some groups.
Proof.
  induction pre as [|c pre IH]; intros Hm Hfirst.
  - simpl. destruct suf; cbn [re_search]; rewrite Hm; reflexivity.
  - cbn [app re_search].
    rewrite (Hfirst [] (c :: pre ++ suf) eq_refl) by (simpl; lia).
    apply IH; [exact Hm|].
    intros pre' suf' Hs Hl. apply (Hfirst (c :: pre') suf').
    + simpl. rewrite Hs. reflexivity.
    + simpl. lia.
Qed.

Lemma re_search_none pat : forall s,
  re_search isdecimal pat s = None <->
  forall pre suf, s = pre ++ suf -> match_here isdecimal pat suf = None.
Proof.
  induction s as [|c s IH]; cbn [re_search].
  - split.
    + intros H pre suf Hs. symmetry in Hs. apply app_eq_nil in Hs as [-> ->].
      destruct (match_here isdecimal pat []); [discriminate|reflexivity].
    + intros H. rewrite (H [] [] eq_refl). reflexivity.
  - split.
    + intros H pre suf Hs.
      destruct (match_here isdecimal pat (c :: s)) eqn:E; [discriminate|].
      destruct pre as [|c' pre].
      * simpl in Hs. subst suf. exact E.
      * injection Hs as <- Hs. apply (proj1 IH H pre suf Hs).
    + intros H. rewrite (H [] (c :: s) eq_refl).
      apply IH. intros pre suf Hs. apply (H (c :: pre) suf). simpl. rewrite Hs. reflexivity.
Qed.

End RegexProofs.

Section RegionProofs.

Variable isdecimal : N -> bool.

Ltac explicit_pattern :=
  let p := eval cbv in region_pattern in change region_pattern with p.

(** The pattern of the source accepts the region segments, and its group
    is their letter. *)
Lemma region_pattern_sound seg :
  Forall2 (atom_accepts isdecimal) region_pattern seg ->
  exists c, captured region_pattern seg = [c] /\ region_segment isdecimal seg c.
Proof.
  explicit_pattern. intros H.
  repeat match goal with
         | HF : Forall2 _ (_ :: _) _ |- _ => inversion HF; subst; clear HF
         | HF : Forall2 _ [] _ |- _ => inversion HF; subst; clear HF
         end.
  cbn [atom_accepts] in *. subst.
  match goal with
  | Hc : In ?c [66%N; 84%N; 78%N] |- _ => exists c; split; [reflexivity|]
  end.
  match goal with
  | |- region_segment _ (_ :: _ :: _ :: _ :: _ :: _ :: _ :: _ :: _ :: ?d1 :: ?d2 :: ?d3 :: ?d4 :: _) _ =>
      exists [d1; d2; d3; d4]
  end.
  repeat split; auto.
Qed.

Lemma region_pattern_complete seg c :
  region_segment isdecimal seg c ->
  Forall2 (atom_accepts isdecimal) region_pattern seg /\
  captured region_pattern seg = [c].
Proof.
  intros (digits & -> & Hlen & Hd & Hc).
  destruct digits as [|d1 [|d2 [|d3 [|d4 [|]]]]]; try discriminate.
  repeat match goal with
         | HF : Forall _ (_ :: _) |- _ => inversion HF; subst; clear HF
         end.
  explicit_pattern. split; [|reflexivity].
  repeat (apply Forall2_cons;
          [cbn [atom_accepts]; first [reflexivity | assumption | exact Hc]|]).
  apply Forall2_nil.
Qed.

Lemma match_here_region s groups :
  match_here isdecimal region_pattern s = Some groups <->
  exists c seg post, groups = [c] /\ s = seg ++ post /\ region_segment isdecimal seg c.
Proof.
  split.
  - intros H. apply match_here_sound in H as (seg & post & -> & HF & ->).
    apply region_pattern_sound in HF as (c & Hc & Hseg).
    exists c, seg, post. auto.
  - intros (c & seg & post & -> & -> & Hseg).
    apply region_pattern_complete in Hseg as [HF Hc].
    rewrite (match_here_complete isdecimal _ _ post HF), Hc. reflexivity.
Qed.

Lemma app_inv_length {A} (l1 : list A) : forall l2 m1 m2,
  l1 ++ m1 = l2 ++ m2 -> length l1 = length l2 -> l1 = l2 /\ m1 = m2.
Proof.
  induction l1 as [|a l1 IH]; intros [|b l2] m1 m2 E Hl; simpl in *;
    try discriminate; [auto|].
  injection E as -> E. destruct (IH l2 m1 m2 E) as [-> ->]; [lia|auto].
Qed.

Lemma no_match_no_segment url pre suf :
  url = pre ++ suf ->
  match_here isdecimal region_pattern suf = None <->
  forall c, ~ segment_at isdecimal url (length pre) c.
Proof.
  intros ->. split.
  - intros Hn c (pre' & seg & post & E & Hl & Hseg).
    apply app_inv_length in E as [_ ->]; [|lia].
    assert (Hm : match_here isdecimal region_pattern (seg ++ post) = Some [c]).
    { apply match_here_region. exists c, seg, post. auto. }
    congruence.
  - intros Hn. destruct (match_here isdecimal region_pattern suf) as [g|] eqn:E; [|reflexivity].
    exfalso. apply match_here_region in E as (c & seg & post & -> & -> & Hseg).
    apply (Hn c). exists pre, seg, post. auto.
Qed.

(** C7. [extract_region_from_url] returns a one-letter string exactly when
    the URL holds a segment '/videos/D', four digits, one of B, T and N,
    '.mp4'; the letter returned is that of the leftmost such segment, and so
    one of 'B', 'T', 'N'; the result is [None] exactly when the URL holds no
    such segment. *)
Theorem extract_region_from_url_spec url :
  (forall r,
     extract_region_from_url isdecimal url = Some r <->
     exists i c,
       r = [c] /\ segment_at isdecimal url i c /\
       forall j c', (j < i)%nat -> ~ segment_at isdecimal url j c') /\
  (extract_region_from_url isdecimal url = None <->
   forall i c, ~ segment_at isdecimal url i c) /\
  (forall r,
     extract_region_from_url isdecimal url = Some r ->
     r = lit "B" \/ r = lit "T" \/ r = lit "N").
Proof.
  assert (Hsome : forall r,
     extract_region_from_url isdecimal url = Some r <->
     exists i c,
       r = [c] /\ segment_at isdecimal url i c /\
       forall j c', (j < i)%nat -> ~ segment_at isdecimal url j c').
  { intros r. unfold extract_region_from_url. split.
    - destruct (re_search isdecimal region_pattern url) as [g|] eqn:E; [|discriminate].
      apply re_search_some in E as (pre & suf & -> & Hm & Hfirst).
      apply match_here_region in Hm as (c & seg & post & -> & -> & Hseg).
      intros [= <-]. exists (length pre), c. split; [reflexivity|]. split.
      + exists pre, seg, post. auto.
      + intros j c' Hj (pre' & seg' & post' & E & Hl & Hseg').
        specialize (Hfirst pre' (seg' ++ post') E ltac:(lia)).
        assert (Hm : match_here isdecimal region_pattern (seg' ++ post') = Some [c']).
        { apply match_here_region. exists c', seg', post'. auto. }
        congruence.
    - intros (i & c & -> & (pre & seg & post & -> & Hl & Hseg) & Hfirst).
      rewrite (re_search_first isdecimal region_pattern [c] (seg ++ post) pre).
      + reflexivity.
      + apply match_here_region. exists c, seg, post. auto.
      + intros pre' suf' E Hlt.
        apply (no_match_no_segment _ pre' suf' E).
        intros c'. apply Hfirst. lia. }
  split; [exact Hsome|]. split.
  - unfold extract_region_from_url. split.
    + destruct (re_search isdecimal region_pattern url) as [[|c g]|] eqn:E.
      * exfalso. apply re_search_some in E as (pre & suf & _ & Hm & _).
        apply match_here_region in Hm as (c & _ & _ & Hc & _). discriminate.
      * discriminate.
      * intros _ i c (pre & seg & post & Hu & Hl & Hseg).
        pose proof (proj1 (re_search_none isdecimal region_pattern url) E pre (seg ++ post) Hu) as Hn.
        assert (Hm : match_here isdecimal region_pattern (seg ++ post) = Some [c]).
        { apply match_here_region. exists c, seg, post. auto. }
        congruence.
    + intros Hn.
      replace (re_search isdecimal region_pattern url) with (@None (list N)); [reflexivity|].
      symmetry. apply re_search_none. intros pre suf E.
      apply (no_match_no_segment _ pre suf E). intros c. apply Hn.
  - intros r Hr. apply Hsome in Hr as (i & c & -> & (pre & seg & post & _ & _ & (d & _ & _ & _ & Hc)) & _).
    simpl in Hc. destruct Hc as [<-|[<-|[<-|[]]]]; auto.
Qed.

End RegionProofs.



Lemma replace_space_no_space s : ~ In 32%N (replace_space s).
Proof.
  unfold replace_space. intros H. apply in_map_iff in H as (c & E & _).
  destruct (N.eqb_spec c 32); [discriminate|contradiction].
Qed.

Lemma insert_by_Text_perm r l : Permutation (r :: l) (insert_by_Text r l).
Proof.
  induction l as [|h t IH]; simpl; [reflexivity|].
  destruct (match Text r, Text h with
            | Some x, Some y => str_leb x y
            | _, None => true
            | None, Some _ => false
            end); [reflexivity|].
  rewrite perm_swap. apply perm_skip. exact IH.
Qed.

Lemma insertion_sort_perm l : Permutation l (insertion_sort l).
Proof.
  induction l as [|r l IH]; simpl; [reflexivity|].
  rewrite <- insert_by_Text_perm. apply perm_skip. exact IH.
Qed.

Lemma filter_split_perm {A} (f : A -> bool) l :
  Permutation l (filter f l ++ filter (fun x => negb (f x)) l).
Proof.
  induction l as [|x l IH]; simpl; [reflexivity|].
  destruct (f x); simpl.
  - apply perm_skip. exact IH.
  - apply Permutation_cons_app. exact IH.
Qed.


Section TableProofs.

Variable isdecimal : N -> bool.
Variable quicksort : list row -> list row.
Hypothesis quicksort_perm : forall l, Permutation l (quicksort l).


Lemma sort_values_Text_perm l : Permutation l (sort_values_Text quicksort l).
Proof.
  unfold sort_values_Text. rewrite <- quicksort_perm. apply filter_split_perm.
Qed.

Lemma apply_extract_region_present urls :
  apply_extract_region isdecimal (map Some urls) =
  Returns (map (fun url => (url, extract_region_from_url isdecimal url)) urls).
Proof.
  induction urls as [|url urls IH]; simpl; [reflexivity|]. rewrite IH. reflexivity.
Qed.


Lemma apply_extract_region_returns urls videos :
  apply_extract_region isdecimal urls = Returns videos ->
  urls = map Some (map fst videos) /\
  Forall (fun v => snd v = extract_region_from_url isdecimal (fst v)) videos.
Proof.
  revert videos. induction urls as [|[url|] urls IH]; simpl; intros videos H.
  - injection H as <-. split; [reflexivity|constructor].
  - destruct (apply_extract_region isdecimal urls) as [regions|e]; [|discriminate].
    injection H as <-. destruct (IH regions eq_refl) as [-> HF].
    split; [reflexivity|]. constructor; [reflexivity|exact HF].
  - discriminate.
Qed.

(** The frame that is processed without an exception. *)
Lemma process_data_returns texts videos :
  process_data isdecimal quicksort (mkFrame (Strings texts) (Strings (map Some videos))) =
  Returns
    (sort_values_Text quicksort
       (map (fun tv => make_row (fst tv) (snd tv))
            (combine texts
               (map (fun video => (lit "https://qipedc.moet.gov.vn" ++ video,
                                   extract_region_from_url isdecimal (lit "https://qipedc.moet.gov.vn" ++ video)))
                    videos)))).
Proof.
  unfold process_data, add_prefix. cbn [csv_Video csv_Text].
  rewrite map_map. cbn [option_map].
  rewrite <- (map_map (app (lit "https://qipedc.moet.gov.vn")) Some).
  rewrite apply_extract_region_present, map_map. reflexivity.
Qed.

Lemma In_combine_nth {A B} (l : list A) (m : list B) a b :
  In (a, b) (combine l m) <->
  exists i, nth_error l i = Some a /\ nth_error m i = Some b.
Proof.
  revert m. induction l as [|x l IH]; intros [|y m]; simpl.
  - split; [contradiction|]. intros ([|i] & H & _); discriminate.
  - split; [contradiction|]. intros ([|i] & H & _); discriminate.
  - split; [contradiction|]. intros ([|i] & _ & H); discriminate.
  - split.
    + intros [[= -> ->]|H]; [exists O; auto|].
      apply IH in H as (i & H1 & H2). exists (S i). auto.
    + intros ([|i] & H1 & H2); simpl in H1, H2.
      * left. congruence.
      * right. apply IH. eauto.
Qed.


End TableProofs.



Example process_data_example :
  process_data ascii_digit insertion_sort
    (mkFrame
       (Strings [Some (lit "xin chao"); Some (lit "an com")])
       (Strings [Some (lit "/videos/D0001N.mp4?autoplay=true");
                 Some (lit "/videos/W0002.mp4?autoplay=true")])) =
  Returns
    [mkRow (Some (lit "an com"))
           (lit "https://qipedc.moet.gov.vn/videos/W0002.mp4?autoplay=true")
           None (Some (lit "an_com"));
     mkRow (Some (lit "xin chao"))
           (lit "https://qipedc.moet.gov.vn/videos/D0001N.mp4?autoplay=true")
           (Some (lit "N")) (Some (lit "xin_chaoN"))].
Proof. reflexivity. Qed.

Example extract_region_examples :
  extract_region_from_url ascii_digit
    (lit "https://qipedc.moet.gov.vn/videos/D0001B.mp4?autoplay=true") = Some (lit "B") /\
  extract_region_from_url ascii_digit
    (lit "https://qipedc.moet.gov.vn/videos/D001B.mp4") = None /\
  extract_region_from_url ascii_digit
    (lit "/videos/D0001X.mp4/videos/D0002T.mp4/videos/D0003N.mp4") = Some (lit "T").
Proof. repeat split. Qed.

End WebScrapingProofs.

(** ** More on the sampler: outcomes, consumption, and the step *)

Module SamplerProofs.
Import Datasets DatasetsSpec DatasetsProofs.

Lemma sampled_nil self video :
  num_frames self <= 0 \/ video = [] -> sampled self video = [].
Proof.
  unfold sampled. intros [H| ->].
  - replace (Z.to_nat (num_frames self)) with O by lia. reflexivity.
  - simpl. rewrite firstn_nil. reflexivity.
Qed.

(** A call that returns a clip returns one of exactly [num_frames] frames:
    [num_frames] is then positive, the step is not zero and the video has
    a frame. *)
Theorem load_video_ok_length self video clip :
  fst (load_video self video) = Ok clip ->
  length clip = Z.to_nat (num_frames self) /\
  0 < num_frames self /\ frame_step self <> 0 /\ video <> [].
Proof.
  intros H.
  pose proof (load_video_ok_inv self video clip H) as (k0 & _ & Hne).
  assert (Hn : 0 < num_frames self).
  { destruct (Z.lt_ge_cases 0 (num_frames self)) as [|Hle]; [assumption|].
    exfalso. apply Hne. apply sampled_nil. left. lia. }
  assert (Hv : video <> []).
  { intros ->. apply Hne. apply sampled_nil. right. reflexivity. }
  assert (Hs : frame_step self <> 0).
  { intros Hz. rewrite (load_video_zero_step self video Hz) in H.
    destruct video as [|f video]; [congruence|].
    destruct (Z.ltb_spec 0 (num_frames self)); [|lia]. discriminate. }
  repeat split; try assumption.
  rewrite (load_video_unfold self video Hs) in H. simpl in H.
  destruct (last_frame (sampled self video)) as [t|] eqn:El.
  2:{ apply last_frame_nil_iff in El. contradiction. }
  pose proof (sampled_length_le self video) as Hle.
  unfold pad in H.
  destruct (Z.ltb_spec (Z.of_nat (length (sampled self video))) (num_frames self)).
  - rewrite (pad_loop_nonempty _ _ t El) in H. simpl in H.
    apply stack_ok in H as [-> _]. rewrite length_app, repeat_length. lia.
  - simpl in H. apply stack_ok in H as [-> _]. lia.
Qed.

Lemma load_video_ok_length_witness :
  length [to_frame_tensor (sample_frame 5); zeros_like (to_frame_tensor (sample_frame 5))]
  = Z.to_nat (num_frames (mkDataset 2 1)).
Proof.
  exact (proj1 (load_video_ok_length (mkDataset 2 1) [sample_frame 5]
                  [to_frame_tensor (sample_frame 5);
                   zeros_like (to_frame_tensor (sample_frame 5))] eq_refl)).
Defined.

Lemma sample_loop_full_buffer self stream frames count :
  num_frames self <= Z.of_nat (length frames) ->
  sample_loop self stream frames count = (Ok frames, stream).
Proof.
  intros H. destruct stream; simpl;
    destruct (Z.ltb_spec (Z.of_nat (length frames)) (num_frames self)); (lia || reflexivity).
Qed.

(** With [num_frames <= 0] the loop decodes nothing, nothing is padded, and
    [torch.stack] of the empty list raises. *)
Theorem load_video_no_frames_wanted self video :
  num_frames self <= 0 ->
  load_video self video = (Raise RuntimeError, mkCapture video true).
Proof.
  intros Hn. unfold load_video. simpl pending.
  rewrite sample_loop_full_buffer by (simpl; lia).
  unfold pad. simpl length.
  destruct (Z.ltb_spec (Z.of_nat 0) (num_frames self)); [lia|]. reflexivity.
Qed.

Lemma load_video_no_frames_wanted_witness :
  load_video (mkDataset 0 4) [sample_frame 1; sample_frame 2] =
  (Raise RuntimeError, mkCapture [sample_frame 1; sample_frame 2] true).
Proof.
  apply (load_video_no_frames_wanted (mkDataset 0 4)). simpl. lia.
Defined.

(** What the loop leaves undecoded. *)
Lemma sample_loop_rest self : 0 < frame_step self ->
  forall stream frames count d,
    0 <= d < frame_step self -> (count + d) mod frame_step self = 0 ->
    Z.of_nat (length frames) < num_frames self ->
    snd (sample_loop self stream frames count) =
    skipn (Z.to_nat (d + (num_frames self - Z.of_nat (length frames) - 1)
                         * frame_step self + 1)) stream.
Proof.
  intros Hs. induction stream as [|f stream IH]; intros frames count d Hd Hm Hlt.
  - simpl. rewrite skipn_nil. destruct (_ <? _); reflexivity.
  - cbn [sample_loop].
    destruct (Z.ltb_spec (Z.of_nat (length frames)) (num_frames self)) as [_|]; [|lia].
    destruct (Z.eqb_spec (frame_step self) 0) as [|_]; [lia|].
    destruct (Z.eqb_spec (count mod frame_step self) 0) as [Hz|Hnz].
    + assert (d = 0) by (eapply mod_zero_gap; eauto). subst d.
      destruct (Z.lt_ge_cases (Z.of_nat (length (frames ++ [to_frame_tensor f])))
                              (num_frames self)) as [Hmore|Hfull].
      * rewrite (IH _ (count + 1) (frame_step self - 1)); [|lia| |exact Hmore].
        -- rewrite length_app in *. simpl length in *.
           replace (Z.to_nat (0 + (num_frames self - Z.of_nat (length frames) - 1)
                                  * frame_step self + 1))
             with (S (Z.to_nat (frame_step self - 1 +
                      (num_frames self - Z.of_nat (length frames + 1) - 1)
                      * frame_step self + 1))) by nia.
           reflexivity.
        -- replace (count + 1 + (frame_step self - 1))
             with (count + 0 + 1 * frame_step self) by lia.
           rewrite Z.mod_add by lia. exact Hm.
      * rewrite sample_loop_full_buffer by exact Hfull. simpl snd.
        rewrite length_app in Hfull. simpl length in Hfull.
        replace (Z.to_nat (0 + (num_frames self - Z.of_nat (length frames) - 1)
                               * frame_step self + 1)) with 1%nat by nia.
        reflexivity.
    + assert (0 < d) by (eapply mod_nonzero_gap; eauto).
      rewrite (IH _ (count + 1) (d - 1)); [|lia| |exact Hlt].
      * replace (Z.to_nat (d + (num_frames self - Z.of_nat (length frames) - 1)
                               * frame_step self + 1))
          with (S (Z.to_nat (d - 1 + (num_frames self - Z.of_nat (length frames) - 1)
                                     * frame_step self + 1))) by nia.
        reflexivity.
      * replace (count + 1 + (d - 1)) with (count + d) by lia. exact Hm.
Qed.

(** The loop stops decoding as soon as the buffer is full: with
    [num_frames > 0] and [frame_step > 0] a call decodes the first
    [(num_frames - 1) * frame_step + 1] frames of the video, or all of a
    shorter one, leaves the others undecoded, and releases the handle. *)
Theorem load_video_consumption self video :
  0 < num_frames self -> 0 < frame_step self ->
  snd (load_video self video) =
  mkCapture
    (skipn (Z.to_nat ((num_frames self - 1) * frame_step self + 1)) video) true.
Proof.
  intros Hn Hs. rewrite load_video_unfold by lia. simpl snd.
  rewrite (sample_loop_rest self Hs video [] 0 0) by (simpl; rewrite ?Z.mod_0_l; lia).
  simpl length. do 2 f_equal. lia.
Qed.

Lemma load_video_consumption_witness :
  snd (load_video (mkDataset 2 3) (map sample_frame [1; 2; 3; 4; 5; 6])) =
  mkCapture (map sample_frame [5; 6]) true.
Proof.
  apply (load_video_consumption (mkDataset 2 3) (map sample_frame [1; 2; 3; 4; 5; 6]));
    simpl; lia.
Defined.

Lemma retained_length s video :
  0 < s ->
  Z.of_nat (length (retained s 0 video)) = (Z.of_nat (length video) + s - 1) / s.
Proof.
  intros Hs.
  assert (Hiff : forall i, (i < length (retained s 0 video))%nat <->
                           (i * Z.to_nat s < length video)%nat).
  { intros i. rewrite <- !nth_error_Some.
    rewrite (retained_nth s Hs video 0 0 i) by (rewrite ?Z.mod_0_l; lia).
    rewrite Nat.add_0_r. reflexivity. }
  set (L := length (retained s 0 video)) in *.
  assert (Hup : (length video <= L * Z.to_nat s)%nat).
  { destruct (Nat.le_gt_cases (length video) (L * Z.to_nat s)) as [|Hgt]; [assumption|].
    apply Hiff in Hgt. lia. }
  assert (Hlow : (L = 0)%nat \/ ((L - 1) * Z.to_nat s < length video)%nat).
  { destruct L as [|L']; [left; reflexivity|right].
    apply Hiff. lia. }
  apply (Z.div_unique _ _ _ (Z.of_nat (length video) + s - 1 - s * Z.of_nat L)); [|lia].
  left. destruct Hlow as [H0|Hlow].
  - rewrite H0 in *. simpl in Hup. lia.
  - nia.
Qed.

(** How many frames of the clip are real: with [frame_step > 0], the
    number of retained frames is the smaller of [num_frames] and the
    number of multiples of [frame_step] below the length of the video; a
    video of one size with at least one frame gives these frames, converted
    and in decode order, followed by zero frames up to [num_frames]. *)
Theorem load_video_real_frames self video :
  0 < num_frames self -> 0 < frame_step self ->
  video <> [] -> uniform video ->
  exists real zero,
    fst (load_video self video) =
      Ok (real ++ repeat zero (Z.to_nat (num_frames self) - length real)) /\
    Z.of_nat (length real) =
      Z.min (num_frames self)
            ((Z.of_nat (length video) + frame_step self - 1) / frame_step self) /\
    (forall i, (i < length real)%nat ->
       exists frame,
         nth_error video (decode_position self i) = Some frame /\
         nth_error real i = Some (to_frame_tensor frame)) /\
    all_zero zero /\
    (forall t, In t real -> dims zero = dims t).
Proof.
  intros Hn Hs Hv Hu.
  destruct (sampled_nonempty self video) as [t Ht]; [lia|lia|exact Hv|].
  exists (sampled self video), (zeros_like t).
  split; [apply load_video_padded; (lia || assumption)|].
  split; [|split; [|split]].
  - unfold sampled. rewrite length_map, length_firstn, Nat2Z.inj_min.
    rewrite retained_length by exact Hs. lia.
  - intros i Hi.
    assert (Hin : (i < Z.to_nat (num_frames self))%nat).
    { pose proof (sampled_length_le self video). lia. }
    apply nth_error_Some in Hi. rewrite sampled_nth in * by assumption.
    destruct (nth_error video (decode_position self i)) as [frame|];
      [|simpl in Hi; congruence].
    exists frame. split; reflexivity.
  - apply zeros_like_all_zero.
  - intros u Hin. rewrite dims_zeros_like.
    apply (sampled_dims self video Hu); [apply last_frame_In; exact Ht|exact Hin].
Qed.

Lemma load_video_real_frames_witness :
  exists real zero,
    fst (load_video (mkDataset 13 4) (map sample_frame [0; 1; 2; 3; 4; 5; 6; 7; 8; 9])) =
      Ok (real ++ repeat zero (13 - length real)) /\
    Z.of_nat (length real) = 3.
Proof.
  destruct (load_video_real_frames (mkDataset 13 4)
              (map sample_frame [0; 1; 2; 3; 4; 5; 6; 7; 8; 9]))
    as (real & zero & H1 & H2 & _).
  - simpl; lia.
  - simpl; lia.
  - discriminate.
  - apply uniform_sample_frames.
  - exists real, zero. split; [exact H1|exact H2].
Defined.

(** The clip depends on the video through its first
    [(num_frames - 1) * frame_step + 1] frames only: what comes after them
    changes neither the clip nor the exception. *)
Theorem load_video_prefix_only self video1 video2 :
  0 < frame_step self ->
  firstn (Z.to_nat ((num_frames self - 1) * frame_step self + 1)) video1 =
  firstn (Z.to_nat ((num_frames self - 1) * frame_step self + 1)) video2 ->
  fst (load_video self video1) = fst (load_video self video2).
Proof. apply load_video_reads_prefix. Qed.

Lemma load_video_prefix_only_witness :
  fst (load_video (mkDataset 2 2) (map sample_frame [1; 2; 3; 4; 5])) =
  fst (load_video (mkDataset 2 2) (map sample_frame [1; 2; 3; 9])).
Proof.
  apply (load_video_prefix_only (mkDataset 2 2)); [simpl; lia|reflexivity].
Defined.

Lemma mod_opp_zero a s : (a mod (- s) =? 0) = (a mod s =? 0).
Proof.
  destruct (Z.eq_dec s 0) as [->|Hs]; [reflexivity|].
  destruct (Z.eqb_spec (a mod s) 0) as [H|H].
  - apply Z.eqb_eq. apply Z.mod_opp_r_z; assumption.
  - apply Z.eqb_neq. intros H'. apply H.
    rewrite <- (Z.opp_involutive s). apply Z.mod_opp_r_z; [lia|exact H'].
Qed.

Lemma sample_loop_opp_step n s stream : forall frames count,
  sample_loop (mkDataset n (- s)) stream frames count =
  sample_loop (mkDataset n s) stream frames count.
Proof.
  induction stream as [|f stream IH]; intros frames count; simpl; [reflexivity|].
  destruct (_ <? n); [|reflexivity].
  replace (- s =? 0) with (s =? 0)
    by (destruct (Z.eqb_spec s 0), (Z.eqb_spec (- s) 0); (reflexivity || lia)).
  destruct (s =? 0); [reflexivity|].
  rewrite mod_opp_zero. apply IH.
Qed.

(** A negative step is not rejected: the test of line 95 uses Python's
    [%], whose result is zero for the same positions, so the call behaves
    as with the step's absolute value. *)
Theorem load_video_negative_step n s video :
  load_video (mkDataset n (- s)) video = load_video (mkDataset n s) video.
Proof.
  unfold load_video. simpl pending. rewrite sample_loop_opp_step. reflexivity.
Qed.

End SamplerProofs.

(** ** Properties of the dataset object *)

Module DatasetItemsProofs.
Import Datasets DatasetsSpec DatasetsProofs WebScraping Py DatasetItems.







Lemma list_getitem_ok {A} (l : list A) idx :
  - Z.of_nat (length l) <= idx < Z.of_nat (length l) ->
  exists x, list_getitem l idx = Ok x /\
            nth_error l (Z.to_nat (if idx <? 0 then idx + Z.of_nat (length l) else idx)) = Some x.
Proof.
  intros H. unfold list_getitem.
  set (i := if idx <? 0 then idx + Z.of_nat (length l) else idx).
  assert (Hi : 0 <= i < Z.of_nat (length l)).
  { unfold i. destruct (Z.ltb_spec idx 0); lia. }
  destruct (Z.leb_spec 0 i); [|lia]. destruct (Z.ltb_spec i (Z.of_nat (length l))); [|lia].
  simpl. destruct (nth_error l (Z.to_nat i)) as [x|] eqn:E; [eauto|].
  apply nth_error_None in E. lia.
Qed.

Lemma list_getitem_out {A} (l : list A) idx :
  idx < - Z.of_nat (length l) \/ Z.of_nat (length l) <= idx ->
  list_getitem l idx = Raise IndexError.
Proof.
  intros H. unfold list_getitem.
  destruct (Z.ltb_spec idx 0);
    destruct (Z.leb_spec 0 (idx + Z.of_nat (length l)));
    destruct (Z.leb_spec 0 idx);
    destruct (Z.ltb_spec (idx + Z.of_nat (length l)) (Z.of_nat (length l)));
    destruct (Z.ltb_spec idx (Z.of_nat (length l))); simpl; try reflexivity; lia.
Qed.


Lemma list_getitem_negative {A} (l : list A) idx :
  - Z.of_nat (length l) <= idx < 0 ->
  list_getitem l idx = list_getitem l (idx + Z.of_nat (length l)).
Proof.
  intros H. unfold list_getitem.
  destruct (Z.ltb_spec idx 0); [|lia].
  destruct (Z.ltb_spec (idx + Z.of_nat (length l)) 0); [lia|]. reflexivity.
Qed.

(** [__getitem__] raises [IndexError] without opening a video exactly when
    the index is outside [-len, len); for an index inside, it opens one
    handle, on the file [os.path.join(data_dir, name)] of the name at that
    index, and leaves it as [load_video] left it. *)
Theorem getitem_index_error self files idx :
  ((idx < - len self \/ len self <= idx) <->
   getitem self files idx = (Raise IndexError, [])) /\
  (- len self <= idx < len self ->
   exists name,
     list_getitem (data self) idx = Ok name /\
     snd (getitem self files idx) =
     [snd (load_video (sampling self) (files (join (data_dir self) name)))]).
Proof.
  unfold getitem, len. split; [split|].
  - intros H. rewrite list_getitem_out by exact H. reflexivity.
  - intros H.
    destruct (Z.lt_ge_cases idx (- Z.of_nat (length (data self)))) as [|Hlo]; [auto|].
    destruct (Z.lt_ge_cases idx (Z.of_nat (length (data self)))) as [Hhi|]; [|auto].
    exfalso.
    destruct (list_getitem_ok (data self) idx) as (name & E & _); [lia|].
    rewrite E in H.
    destruct (load_video (sampling self) (files (join (data_dir self) name)))
      as [[video|e] cap]; discriminate.
  - intros H. destruct (list_getitem_ok (data self) idx H) as (name & E & _).
    exists name. split; [exact E|]. rewrite E.
    destruct (load_video (sampling self) (files (join (data_dir self) name)))
      as [[video|e] cap]; reflexivity.
Qed.

Lemma getitem_index_error_witness :
  exists name,
    list_getitem (data (init (lit "videos") 2 1 None [lit "a.mp4"; lit "b.mp4"])) 1
      = Ok name /\
    snd (getitem (init (lit "videos") 2 1 None [lit "a.mp4"; lit "b.mp4"])
                 (fun _ => [sample_frame 1]) 1) =
    [snd (load_video (mkDataset 2 1) [sample_frame 1])].
Proof.
  apply (proj2 (getitem_index_error
                  (init (lit "videos") 2 1 None [lit "a.mp4"; lit "b.mp4"])
                  (fun _ => [sample_frame 1]) 1)).
  vm_compute. split; [discriminate|reflexivity].
Defined.

(** A negative index counts from the end: [dataset[idx]] is
    [dataset[idx + len]] for [-len <= idx < 0]. *)
Theorem getitem_negative_index self files idx :
  - len self <= idx < 0 ->
  getitem self files idx = getitem self files (idx + len self).
Proof.
  intros H. unfold getitem, len in *.
  rewrite (list_getitem_negative (data self) idx H). reflexivity.
Qed.

Lemma getitem_negative_index_witness :
  getitem (init (lit "videos") 2 1 None [lit "a.mp4"; lit "b.mp4"])
          (fun _ => [sample_frame 1]) (-1) =
  getitem (init (lit "videos") 2 1 None [lit "a.mp4"; lit "b.mp4"])
          (fun _ => [sample_frame 1]) 1.
Proof.
  apply (getitem_negative_index
           (init (lit "videos") 2 1 None [lit "a.mp4"; lit "b.mp4"])
           (fun _ => [sample_frame 1]) (-1)).
  vm_compute. split; [discriminate|reflexivity].
Defined.




(** An item of a readable video: for an index in range, [num_frames > 0],
    a step other than zero and a file that decodes to at least one frame,
    all of one size, the call opens the file [os.path.join(data_dir, name)],
    releases it, and gets a clip of exactly [num_frames] frames.  It hands
    the clip to the transform when there is one and the test of line 70
    finds it truthy, and returns what the transform returns or raises what
    it raises; with no transform, or a falsy one, it returns the clip as it
    is.  The label is [splitext(name)[0]]. *)
Theorem getitem_clip self files idx name :
  list_getitem (data self) idx = Ok name ->
  0 < num_frames (sampling self) -> frame_step (sampling self) <> 0 ->
  files (join (data_dir self) name) <> [] ->
  uniform (files (join (data_dir self) name)) ->
  exists clip cap,
    load_video (sampling self) (files (join (data_dir self) name)) = (Ok clip, cap) /\
    length clip = Z.to_nat (num_frames (sampling self)) /\
    released cap = true /\
    getitem self files idx =
    (match transform self with
     | Some f =>
         if truthy f
         then match call f clip with
              | Ok v => Ok (v, fst (splitext name))
              | Raise e => Raise e
              end
         else Ok (clip, fst (splitext name))
     | None => Ok (clip, fst (splitext name))
     end, [cap]).
Proof.
  intros Hname Hn Hs Hv Hu.
  destruct (load_video_clip_length (sampling self) _ Hn Hs Hv Hu) as (clip & Hok & Hlen).
  pose proof (load_video_unfold (sampling self) (files (join (data_dir self) name)) Hs) as Hun.
  destruct (load_video (sampling self) (files (join (data_dir self) name)))
    as [outcome cap] eqn:E.
  simpl in Hok. subst outcome.
  exists clip, cap. split; [reflexivity|]. split; [exact Hlen|]. split.
  - injection Hun as _ ->. reflexivity.
  - unfold getitem, apply_transform. rewrite Hname, E.
    destruct (transform self) as [f|]; [|reflexivity].
    destruct (truthy f); [|reflexivity]. destruct (call f clip); reflexivity.
Qed.

Lemma getitem_clip_witness :
  exists clip cap,
    getitem (init (lit "videos") 2 1 None [lit "a.mp4"])
            (fun _ => [sample_frame 1]) 0 = (Ok (clip, lit "a"), [cap]) /\
    length clip = 2%nat.
Proof.
  destruct (getitem_clip (init (lit "videos") 2 1 None [lit "a.mp4"])
              (fun _ => [sample_frame 1]) 0 (lit "a.mp4"))
    as (clip & cap & _ & Hl & _ & Hg).
  - reflexivity.
  - simpl; lia.
  - simpl; lia.
  - discriminate.
  - apply (uniform_sample_frames [1]).
  - exists clip, cap. split; [exact Hg|exact Hl].
Defined.

Lemma load_video_nil self :
  0 < num_frames self ->
  load_video self [] = (Raise IndexError, mkCapture [] true).
Proof.
  intros Hn. unfold load_video, pad. simpl.
  destruct (Z.ltb_spec 0 (num_frames self)) as [_|]; [|lia].
  simpl. destruct (Z.ltb_spec 0 (num_frames self)) as [_|]; [|lia].
  rewrite Z.sub_0_r.
  destruct (Z.to_nat (num_frames self)) eqn:E; [lia|]. reflexivity.
Qed.

(** An item of a video that decodes to no frame: for an index in range and
    [num_frames > 0], [__getitem__] raises [IndexError], the error of an
    index out of range, after it opened and released the file; the
    transform is not called. *)
Theorem getitem_unreadable self files idx name :
  list_getitem (data self) idx = Ok name ->
  0 < num_frames (sampling self) ->
  files (join (data_dir self) name) = [] ->
  getitem self files idx = (Raise IndexError, [mkCapture [] true]).
Proof.
  intros Hname Hn Hv. unfold getitem. rewrite Hname, Hv.
  rewrite load_video_nil by exact Hn. reflexivity.
Qed.

Lemma getitem_unreadable_witness :
  getitem (init (lit "videos") 13 4 None [lit "broken.mp4"]) (fun _ => []) 0 =
  (Raise IndexError, [mkCapture [] true]).
Proof.
  apply (getitem_unreadable (init (lit "videos") 13 4 None [lit "broken.mp4"])
           (fun _ => []) 0 (lit "broken.mp4")).
  - reflexivity.
  - simpl; lia.
  - reflexivity.
Defined.

End DatasetItemsProofs.

(** ** Properties of the scraper *)

Module ScrapingProofs.
Import WebScraping WebScrapingSpec WebScrapingProofs Py Scraping ScrapingSpec.

Lemma startswith_app old rest : startswith (old ++ rest) old = true.
Proof.
  induction old as [|o old IH]; simpl.
  - destruct rest; reflexivity.
  - rewrite N.eqb_refl, IH. reflexivity.
Qed.

Lemma startswith_head_differs c s o old :
  c <> o -> startswith (c :: s) (o :: old) = false.
Proof. intros H. simpl. apply N.eqb_neq in H. rewrite H. reflexivity. Qed.

Lemma replace_from_skip old new p : forall rest,
  replace_from old new (length p) (p ++ rest) = replace_from old new 0 rest.
Proof.
  induction p as [|x p IH]; intros rest; [reflexivity|]. simpl. apply IH.
Qed.

(** [replace] copies a character that cannot start an occurrence. *)
Lemma replace_cons_other c s o old new :
  c <> o ->
  replace (c :: s) (o :: old) new = c :: replace s (o :: old) new.
Proof.
  intros H. unfold replace. cbn [replace_from].
  rewrite startswith_head_differs by exact H. reflexivity.
Qed.

(** [replace] rewrites an occurrence at the start and goes on after it. *)
Lemma replace_match o old new rest :
  replace ((o :: old) ++ rest) (o :: old) new = new ++ replace rest (o :: old) new.
Proof.
  unfold replace. change ((o :: old) ++ rest) with (o :: (old ++ rest)).
  cbn [replace_from].
  change (o :: (old ++ rest)) with ((o :: old) ++ rest).
  rewrite startswith_app. f_equal.
  replace (length (o :: old) - 1)%nat with (length old) by (simpl; lia).
  apply replace_from_skip.
Qed.

Lemma replace_app_absent pre s o old new :
  ~ In o pre ->
  replace (pre ++ s) (o :: old) new = pre ++ replace s (o :: old) new.
Proof.
  induction pre as [|c pre IH]; intros Hn; [reflexivity|].
  simpl app. rewrite replace_cons_other.
  - rewrite IH; [reflexivity|]. intros H. apply Hn. right. exact H.
  - intros ->. apply Hn. left. reflexivity.
Qed.

Lemma replace_absent s o old new :
  ~ In o s -> replace s (o :: old) new = s.
Proof.
  intros H. rewrite <- (app_nil_r s) at 1.
  rewrite replace_app_absent by exact H. simpl. apply app_nil_r.
Qed.

Lemma contains_false_cons c s sub :
  contains (c :: s) sub = false ->
  startswith (c :: s) sub = false /\ contains s sub = false.
Proof. simpl. intros H. apply orb_false_iff in H. exact H. Qed.

Lemma replace_not_contained s o old new :
  contains s (o :: old) = false -> replace s (o :: old) new = s.
Proof.
  unfold replace. induction s as [|c s IH]; intros H; [reflexivity|].
  apply contains_false_cons in H as [H1 H2].
  cbn [replace_from]. rewrite H1, (IH H2). reflexivity.
Qed.

(** The rewriting of a thumbnail link of the site, whose only 't' and '.'
    are those of 'thumbs' and '.png': the path segment and the extension
    change, the rest stays. *)
Theorem get_video_links_thumbnail pre mid :
  ~ In 116%N pre -> ~ In 46%N pre -> ~ In 116%N mid -> ~ In 46%N mid ->
  get_video_links [pre ++ lit "thumbs" ++ mid ++ lit ".png"] =
  [pre ++ lit "videos" ++ mid ++ lit ".mp4?autoplay=true"].
Proof.
  intros Hpt Hpd Hmt Hmd. unfold get_video_links. cbn [map]. f_equal.
  assert (E1 : replace (pre ++ lit "thumbs" ++ mid ++ lit ".png")
                 (lit "thumbs") (lit "videos")
               = pre ++ lit "videos" ++ mid ++ lit ".png").
  { change (lit "thumbs") with (116%N :: lit "humbs") at 2.
    rewrite replace_app_absent by exact Hpt.
    change (lit "thumbs") with (116%N :: lit "humbs") at 1.
    rewrite replace_match.
    rewrite replace_app_absent by exact Hmt.
    rewrite replace_absent; [reflexivity|].
    simpl. intuition discriminate. }
  rewrite E1.
  change (lit ".png") with (46%N :: lit "png") at 2.
  rewrite replace_app_absent by exact Hpd.
  rewrite (replace_app_absent (lit "videos")) by (simpl; intuition discriminate).
  rewrite replace_app_absent by exact Hmd.
  change (lit ".png") with ((46%N :: lit "png") ++ []).
  rewrite replace_match. reflexivity.
Qed.

Lemma get_video_links_thumbnail_witness :
  get_video_links [lit "/thumbs/D0001B.png"] =
  [lit "/videos/D0001B.mp4?autoplay=true"].
Proof.
  apply (get_video_links_thumbnail (lit "/") (lit "/D0001B"));
    simpl; intuition discriminate.
Defined.

(** Links that hold neither 'thumbs' nor '.png' are left as they are. *)
Theorem get_video_links_other images :
  Forall (fun img => contains img (lit "thumbs") = false /\
                     contains img (lit ".png") = false) images ->
  get_video_links images = images.
Proof.
  unfold get_video_links. induction 1 as [|img images [H1 H2] _ IH]; [reflexivity|].
  cbn [map]. rewrite IH. f_equal.
  change (lit "thumbs") with (116%N :: lit "humbs") in *.
  change (lit ".png") with (46%N :: lit "png") in *.
  rewrite (replace_not_contained _ _ _ _ H1). apply replace_not_contained. exact H2.
Qed.

Lemma get_video_links_other_witness :
  get_video_links [lit "/img/logo.jpg"; lit "/videos/D0001B.mp4"] =
  [lit "/img/logo.jpg"; lit "/videos/D0001B.mp4"].
Proof.
  apply (get_video_links_other [lit "/img/logo.jpg"; lit "/videos/D0001B.mp4"]).
  repeat constructor.
Defined.

Lemma nth_error_tl {A} (l : list A) i : nth_error (tl l) i = nth_error l (S i).
Proof. destruct l; [destruct i|]; reflexivity. Qed.

Lemma nth_error_combine {A B} (l : list A) : forall (m : list B) i,
  nth_error (combine l m) i =
  match nth_error l i, nth_error m i with
  | Some a, Some b => Some (a, b)
  | _, _ => None
  end.
Proof.
  induction l as [|a l IH]; intros m i.
  - destruct i; reflexivity.
  - destruct m as [|b m], i as [|i]; simpl; try reflexivity.
    + destruct (nth_error l i); reflexivity.
    + apply IH.
Qed.

(** The pairs of one page: the [i]-th text goes with the video link of the
    image after the [i]-th one, because the first image of the page is
    dropped, and there are as many pairs as the shorter list allows. *)
Theorem page_text_video_nth texts srcs i :
  nth_error (page_text_video texts srcs) i =
  match nth_error texts i, nth_error (get_video_links srcs) (S i) with
  | Some text, Some video => Some (text, video)
  | _, _ => None
  end /\
  length (page_text_video texts srcs) = Nat.min (length texts) (length srcs - 1).
Proof.
  unfold page_text_video, extract_data. split.
  - rewrite nth_error_combine. unfold get_video_links.
    rewrite <- nth_error_tl. destruct srcs; reflexivity.
  - rewrite length_combine. unfold get_video_links. rewrite length_map.
    destruct srcs; simpl; lia.
Qed.

Lemma str_leb_total a : forall b, str_leb a b = false -> str_leb b a = true.
Proof.
  induction a as [|x a IH]; intros [|y b]; simpl; try discriminate; try reflexivity.
  destruct (N.ltb_spec x y); [discriminate|].
  destruct (N.eqb_spec x y) as [->|Hne].
  - rewrite N.ltb_irrefl, N.eqb_refl. apply IH.
  - intros _. destruct (N.ltb_spec y x); [reflexivity|lia].
Qed.

Lemma str_leb_trans a : forall b c,
  str_leb a b = true -> str_leb b c = true -> str_leb a c = true.
Proof.
  induction a as [|x a IH]; intros [|y b] [|z c]; simpl; try discriminate; try reflexivity.
  destruct (N.ltb_spec x y), (N.ltb_spec y z), (N.ltb_spec x z);
    try reflexivity; try lia;
    destruct (N.eqb_spec x y), (N.eqb_spec y z), (N.eqb_spec x z);
    try discriminate; try lia; try reflexivity.
  apply IH.
Qed.

Lemma Text_le_trans a b c : Text_le a b -> Text_le b c -> Text_le a c.
Proof.
  unfold Text_le. destruct (Text a), (Text b), (Text c); try tauto.
  apply str_leb_trans.
Qed.

Lemma insert_by_Text_test r h :
  (if match Text r, Text h with
      | Some x, Some y => str_leb x y
      | _, None => true
      | None, Some _ => false
      end
   then Text_le r h else Text_le h r).
Proof.
  unfold Text_le. destruct (Text r) as [x|], (Text h) as [y|]; simpl; auto.
  destruct (str_leb x y) eqn:E; [reflexivity|apply str_leb_total; exact E].
Qed.

Lemma insert_by_Text_hd r a l :
  HdRel Text_le a l -> Text_le a r -> HdRel Text_le a (insert_by_Text r l).
Proof.
  intros Hl Har. destruct l as [|h t]; simpl; [constructor; exact Har|].
  destruct (match Text r, Text h with
            | Some x, Some y => str_leb x y
            | _, None => true
            | None, Some _ => false
            end); constructor; [exact Har|].
  inversion Hl. assumption.
Qed.

Lemma insert_by_Text_sorted r l :
  Sorted Text_le l -> Sorted Text_le (insert_by_Text r l).
Proof.
  induction 1 as [|h t Ht IH Hh]; simpl; [repeat constructor|].
  pose proof (insert_by_Text_test r h) as Htest.
  destruct (match Text r, Text h with
            | Some x, Some y => str_leb x y
            | _, None => true
            | None, Some _ => false
            end).
  - constructor; [constructor; assumption|constructor; exact Htest].
  - constructor; [exact IH|]. apply insert_by_Text_hd; assumption.
Qed.

Lemma insertion_sort_sorted l : Sorted Text_le (insertion_sort l).
Proof.
  induction l as [|r l IH]; simpl; [constructor|].
  apply insert_by_Text_sorted. exact IH.
Qed.

Lemma StronglySorted_app {A} (R : A -> A -> Prop) l1 l2 :
  StronglySorted R l1 -> StronglySorted R l2 ->
  (forall a b, In a l1 -> In b l2 -> R a b) ->
  StronglySorted R (l1 ++ l2).
Proof.
  induction 1 as [|a l1 H1 IH Ha]; intros H2 Hc; simpl; [exact H2|].
  constructor.
  - apply IH; [exact H2|]. intros x y Hx Hy. apply Hc; [right; exact Hx|exact Hy].
  - apply Forall_app. split; [exact Ha|].
    apply Forall_forall. intros y Hy. apply Hc; [left; reflexivity|exact Hy].
Qed.

Lemma StronglySorted_nth {A} (R : A -> A -> Prop) l :
  StronglySorted R l ->
  forall i j a b, (i < j)%nat -> nth_error l i = Some a -> nth_error l j = Some b -> R a b.
Proof.
  induction 1 as [|x l HS IH Hx]; intros i j a b Hij Hi Hj.
  - destruct i; discriminate.
  - destruct j as [|j]; [lia|]. destruct i as [|i]; simpl in Hi, Hj.
    + injection Hi as <-. rewrite Forall_forall in Hx.
      apply Hx. eapply nth_error_In; eauto.
    + apply (IH i j); (lia || assumption).
Qed.

Section TableMore.

Variable isdecimal : N -> bool.
Variable quicksort : list row -> list row.
Hypothesis quicksort_perm : forall l, Permutation l (quicksort l).

Lemma re_search_cons_none pat c s :
  match_here isdecimal pat (c :: s) = None ->
  re_search isdecimal pat (c :: s) = re_search isdecimal pat s.
Proof. intros H. cbn [re_search]. rewrite H. reflexivity. Qed.

Lemma re_search_here pat s groups :
  match_here isdecimal pat s = Some groups ->
  re_search isdecimal pat s = Some groups.
Proof. intros H. destruct s; cbn [re_search]; rewrite H; reflexivity. Qed.

(** The region code is one of the three letters. *)
Lemma extract_region_letter url r :
  extract_region_from_url isdecimal url = Some r ->
  exists c, r = [c] /\ In c (lit "BTN").
Proof.
  unfold extract_region_from_url.
  destruct (re_search isdecimal region_pattern url) as [g|] eqn:E; [|discriminate].
  apply re_search_some in E as (pre & suf & _ & Hm & _).
  apply match_here_region in Hm as (c & seg & post & -> & _ & (d & _ & _ & _ & Hc)).
  intros [= <-]. exists c. auto.
Qed.

(** What a frame is made of when [process_data] returns. *)
Lemma process_data_returns_inv frame out :
  process_data isdecimal quicksort frame = Returns out ->
  exists texts cells videos,
    csv_Text frame = Strings texts /\
    csv_Video frame = Strings cells /\
    length videos = length cells /\
    Forall (fun v => snd v = extract_region_from_url isdecimal (fst v)) videos /\
    out = sort_values_Text quicksort
            (map (fun tv => make_row (fst tv) (snd tv)) (combine texts videos)).
Proof.
  unfold process_data, add_prefix.
  destruct (csv_Video frame) as [cells|n] eqn:Ev; [|discriminate].
  destruct (apply_extract_region isdecimal _) as [videos|e] eqn:Ea; [|discriminate].
  destruct (csv_Text frame) as [texts|n]; [|discriminate].
  intros [= <-]. exists texts, cells, videos.
  apply apply_extract_region_returns in Ea as [Hurls HF].
  repeat split; try assumption.
  apply (f_equal (@length _)) in Hurls. rewrite !length_map in Hurls.
  symmetry. exact Hurls.
Qed.

(** No Label holds a space: whenever [process_data] returns, whatever the
    frame read from the file, a Label is missing or is a string without a
    space. *)
Theorem process_data_label_no_space frame out r label :
  process_data isdecimal quicksort frame = Returns out ->
  In r out -> Label r = Some label -> ~ In 32%N label.
Proof.
  intros Hout Hin Hl.
  apply process_data_returns_inv in Hout as (texts & cells & videos & _ & _ & _ & HF & ->).
  apply (Permutation_in _ (Permutation_sym (sort_values_Text_perm quicksort quicksort_perm _)))
    in Hin.
  apply in_map_iff in Hin as ([text v] & <- & Hc).
  apply in_combine_r in Hc. rewrite Forall_forall in HF. specialize (HF v Hc).
  unfold make_row in Hl. cbn in Hl. destruct text as [t|]; [|discriminate].
  injection Hl as <-. intros H. apply in_app_or in H as [H|H].
  - exact (replace_space_no_space _ H).
  - rewrite HF in H.
    destruct (extract_region_from_url isdecimal (fst v)) as [code|] eqn:E; [|exact H].
    apply extract_region_letter in E as (c & -> & Hcode).
    simpl in H, Hcode. destruct H as [->|[]].
    destruct Hcode as [E|[E|[E|[]]]]; discriminate.
Qed.

(** From the thumbnail to the row.  A thumbnail of the site's naming
    scheme, '/thumbs/D', four digits, a letter out of B, T and N, '.png',
    whose video link stands in a row with a Text that is read as a string,
    gives in the frame [process_data] returns the row with the absolute
    URL of the video, '?autoplay=true' at its end, the letter as Region,
    and as Label the Text with underscores followed by the letter. *)
Theorem thumbnail_to_row texts videos i text d1 d2 d3 d4 c video out :
  Forall (fun d => isdecimal d = true /\ d <> 116%N /\ d <> 46%N) [d1; d2; d3; d4] ->
  In c (lit "BTN") ->
  get_video_links [lit "/thumbs/D" ++ [d1; d2; d3; d4] ++ [c] ++ lit ".png"] = [video] ->
  nth_error texts i = Some (Some text) ->
  nth_error videos i = Some video ->
  process_data isdecimal quicksort
    (mkFrame (Strings texts) (Strings (map Some videos))) = Returns out ->
  In (mkRow (Some text)
            (lit "https://qipedc.moet.gov.vn/videos/D" ++ [d1; d2; d3; d4] ++ [c]
               ++ lit ".mp4?autoplay=true")
            (Some [c])
            (Some (replace_space text ++ [c])))
     out.
Proof.
  intros Hd Hc Hv Ht Hvid Hout.
  assert (Hd' := Hd).
  repeat match goal with
         | HF : Forall _ (_ :: _) |- _ => inversion HF; subst; clear HF
         | HF : Forall _ [] |- _ => clear HF
         end.
  repeat match goal with H : _ /\ _ |- _ => destruct H end.
  assert (Hvideo : video = lit "/videos/D" ++ [d1; d2; d3; d4] ++ [c]
                           ++ lit ".mp4?autoplay=true").
  { assert (E : get_video_links
                  [lit "/thumbs/D" ++ [d1; d2; d3; d4] ++ [c] ++ lit ".png"] =
                [lit "/videos/D" ++ [d1; d2; d3; d4] ++ [c]
                   ++ lit ".mp4?autoplay=true"]).
    { assert (Hc46 : c <> 46%N /\ c <> 116%N).
      { simpl in Hc. destruct Hc as [<-|[<-|[<-|[]]]]; split; discriminate. }
      apply (get_video_links_thumbnail (lit "/") (lit "/D" ++ [d1; d2; d3; d4] ++ [c]));
        simpl; intuition (try discriminate; congruence). }
    rewrite E in Hv. injection Hv as <-. reflexivity. }
  subst video.
  assert (Hregion :
    extract_region_from_url isdecimal
      (lit "https://qipedc.moet.gov.vn" ++ lit "/videos/D" ++ [d1; d2; d3; d4] ++ [c]
         ++ lit ".mp4?autoplay=true") = Some [c]).
  { unfold extract_region_from_url.
    replace (re_search isdecimal region_pattern _) with (Some [c]); [reflexivity|].
    symmetry.
    change (lit "https://qipedc.moet.gov.vn" ++ lit "/videos/D" ++ [d1; d2; d3; d4]
              ++ [c] ++ lit ".mp4?autoplay=true")
      with (lit "https://qipedc.moet.gov.vn" ++
            (lit "/videos/D" ++ [d1; d2; d3; d4] ++ [c] ++ lit ".mp4")
            ++ lit "?autoplay=true").
    let t := eval cbv in (lit "https://qipedc.moet.gov.vn") in
    change (lit "https://qipedc.moet.gov.vn") with t.
    cbn [app].
    repeat (rewrite re_search_cons_none by reflexivity).
    apply re_search_here. apply match_here_region.
    exists c, (lit "/videos/D" ++ [d1; d2; d3; d4] ++ [c] ++ lit ".mp4"),
           (lit "?autoplay=true").
    split; [reflexivity|]. split; [reflexivity|].
    exists [d1; d2; d3; d4]. repeat split; auto. }
  rewrite (process_data_returns isdecimal quicksort) in Hout. injection Hout as <-.
  apply (Permutation_in _ (sort_values_Text_perm quicksort quicksort_perm _)).
  apply in_map_iff.
  exists (Some text,
          (lit "https://qipedc.moet.gov.vn" ++
             lit "/videos/D" ++ [d1; d2; d3; d4] ++ [c] ++ lit ".mp4?autoplay=true",
           extract_region_from_url isdecimal
             (lit "https://qipedc.moet.gov.vn" ++
                lit "/videos/D" ++ [d1; d2; d3; d4] ++ [c] ++ lit ".mp4?autoplay=true"))).
  split.
  - unfold make_row. cbn [fst snd option_map]. rewrite Hregion. reflexivity.
  - apply In_combine_nth. exists i. split; [exact Ht|].
    exact (map_nth_error _ _ _ Hvid).
Qed.

Hypothesis quicksort_sorted :
  forall l, Forall (fun r => has_Text r = true) l -> Sorted Text_le (quicksort l).

Lemma sort_values_Text_sorted l :
  StronglySorted Text_le (sort_values_Text quicksort l).
Proof.
  unfold sort_values_Text. apply StronglySorted_app.
  - apply Sorted_StronglySorted; [intros a b c; apply Text_le_trans|].
    apply quicksort_sorted. apply Forall_forall. intros r Hr.
    apply filter_In in Hr. tauto.
  - induction l as [|r l IH]; simpl; [constructor|].
    destruct (has_Text r) eqn:E; simpl; [exact IH|].
    constructor; [exact IH|].
    apply Forall_forall. intros b Hb. apply filter_In in Hb as [_ Hb].
    unfold Text_le, has_Text in *. destruct (Text b); [discriminate|].
    destruct (Text r); exact I.
  - intros a b _ Hb. apply filter_In in Hb as [_ Hb].
    unfold Text_le, has_Text in *. destruct (Text b); [discriminate|].
    destruct (Text a); exact I.
Qed.

(** The frame [process_data] returns has one row per row read, and its
    rows stand in ascending order of Text, in the order of Python strings,
    with the rows whose Text is missing at the end: no row comes before a
    row with a smaller Text. *)
Theorem process_data_sorted texts cells out :
  length texts = length cells ->
  process_data isdecimal quicksort (mkFrame (Strings texts) (Strings cells)) = Returns out ->
  length out = length texts /\
  forall i j ri rj,
    (i < j)%nat -> nth_error out i = Some ri -> nth_error out j = Some rj ->
    match Text ri, Text rj with
    | Some x, Some y => str_leb x y = true
    | _, None => True
    | None, Some _ => False
    end.
Proof.
  intros Hlen Hout.
  apply process_data_returns_inv in Hout
    as (texts' & cells' & videos & [= <-] & [= <-] & Hv & _ & ->).
  split.
  - rewrite <- (Permutation_length (sort_values_Text_perm quicksort quicksort_perm _)).
    rewrite length_map, length_combine, Hv, Hlen. apply Nat.min_id.
  - intros i j ri rj Hij Hi Hj.
    exact (StronglySorted_nth _ _ (sort_values_Text_sorted _) i j ri rj Hij Hi Hj).
Qed.

End TableMore.

Lemma process_data_label_no_space_witness :
  ~ In 32%N (lit "xin_chao_banN").
Proof.
  apply (process_data_label_no_space ascii_digit insertion_sort insertion_sort_perm
           (mkFrame (Strings [Some (lit "xin chao ban")])
                    (Strings [Some (lit "/videos/D0001N.mp4")]))
           [mkRow (Some (lit "xin chao ban"))
                  (lit "https://qipedc.moet.gov.vn/videos/D0001N.mp4")
                  (Some (lit "N")) (Some (lit "xin_chao_banN"))]
           (mkRow (Some (lit "xin chao ban"))
                  (lit "https://qipedc.moet.gov.vn/videos/D0001N.mp4")
                  (Some (lit "N")) (Some (lit "xin_chao_banN")))).
  - reflexivity.
  - left. reflexivity.
  - reflexivity.
Defined.

Lemma thumbnail_to_row_witness :
  In (mkRow (Some (lit "xin chao"))
            (lit "https://qipedc.moet.gov.vn/videos/D0001B.mp4?autoplay=true")
            (Some (lit "B")) (Some (lit "xin_chaoB")))
     [mkRow (Some (lit "xin chao"))
            (lit "https://qipedc.moet.gov.vn/videos/D0001B.mp4?autoplay=true")
            (Some (lit "B")) (Some (lit "xin_chaoB"))].
Proof.
  apply (thumbnail_to_row ascii_digit insertion_sort insertion_sort_perm
           [Some (lit "xin chao")] [lit "/videos/D0001B.mp4?autoplay=true"] 0
           (lit "xin chao") 48%N 48%N 48%N 49%N 66%N
           (lit "/videos/D0001B.mp4?autoplay=true")).
  - repeat constructor; discriminate.
  - simpl. auto.
  - reflexivity.
  - reflexivity.
  - reflexivity.
  - reflexivity.
Defined.

Lemma process_data_sorted_witness :
  length
    [mkRow (Some (lit "an com")) (lit "https://qipedc.moet.gov.vn/videos/D0002B.mp4")
           (Some (lit "B")) (Some (lit "an_comB"));
     mkRow (Some (lit "xin chao")) (lit "https://qipedc.moet.gov.vn/videos/D0001N.mp4")
           (Some (lit "N")) (Some (lit "xin_chaoN"));
     mkRow None (lit "https://qipedc.moet.gov.vn/videos/D0003T.mp4")
           (Some (lit "T")) None] = 3%nat.
Proof.
  apply (proj1 (process_data_sorted ascii_digit insertion_sort insertion_sort_perm
                  (fun l _ => insertion_sort_sorted l)
                  [Some (lit "xin chao"); None; Some (lit "an com")]
                  [Some (lit "/videos/D0001N.mp4"); Some (lit "/videos/D0003T.mp4");
                   Some (lit "/videos/D0002B.mp4")]
                  _ eq_refl eq_refl)).
Defined.

Lemma first_btn_info_some classes : forall k,
  first_btn_info classes = Some k <->
  (exists cls, nth_error classes k = Some cls /\
               contains cls (lit "btn-info") = true) /\
  (forall j cls, (j < k)%nat -> nth_error classes j = Some cls ->
                 contains cls (lit "btn-info") = false).
Proof.
  induction classes as [|c classes IH]; intros k; cbn [first_btn_info].
  - split; [discriminate|]. intros [(cls & H & _) _]. destruct k; discriminate.
  - destruct (contains c (lit "btn-info")) eqn:Ec.
    + split.
      * intros [= <-]. split; [exists c; auto|]. intros j cls Hj. lia.
      * intros [(cls & Hk & Hc) Hfirst]. destruct k as [|k]; [reflexivity|].
        specialize (Hfirst O c ltac:(lia) eq_refl). congruence.
    + destruct k as [|k].
      * split.
        -- destruct (first_btn_info classes); discriminate.
        -- intros [(cls & Hk & Hc) _]. simpl in Hk. congruence.
      * split.
        -- destruct (first_btn_info classes) as [k'|] eqn:E; [|discriminate].
           intros [= Hk]. subst k'.
           destruct (proj1 (IH k) eq_refl) as [Hex Hfirst]. split; [exact Hex|].
           intros [|j] cls Hj Hn; simpl in Hn; [congruence|].
           apply (Hfirst j cls); (lia || assumption).
        -- intros [Hex Hfirst].
           replace (first_btn_info classes) with (Some k); [reflexivity|].
           symmetry. apply IH. split; [exact Hex|].
           intros j cls Hj Hn. apply (Hfirst (S j) cls); (lia || assumption).
Qed.

(** The pagination step presses a button exactly when a button marked
    'btn-info', the current page, has a button after it, and it presses
    that next one, counted from the first marked button; when no button is
    marked, or the first marked one is the last, the loop ends.  The first
    button of the page is never pressed. *)
Theorem next_page_click classes i :
  next_page classes = Click i <->
  exists k cls,
    i = S k /\ (i < length classes)%nat /\
    nth_error classes k = Some cls /\ contains cls (lit "btn-info") = true /\
    forall j c, (j < k)%nat -> nth_error classes j = Some c ->
                contains c (lit "btn-info") = false.
Proof.
  unfold next_page. split.
  - destruct (first_btn_info classes) as [k|] eqn:E; [|discriminate].
    destruct (Nat.ltb_spec (k + 1) (length classes)); [|discriminate].
    intros [= <-]. apply first_btn_info_some in E as [(cls & Hk & Hc) Hfirst].
    exists k, cls. repeat split; (lia || assumption).
  - intros (k & cls & -> & Hlt & Hk & Hc & Hfirst).
    replace (first_btn_info classes) with (Some k).
    + destruct (Nat.ltb_spec (k + 1) (length classes)); [f_equal; lia|lia].
    + symmetry. apply first_btn_info_some. split; [eauto|exact Hfirst].
Qed.

End ScrapingProofs.
